(** * ReAgent: the reversible coordination substrate

    A shallow embedding of the message pool ([Interaction/messagepool.py]),
    the message record ([Interaction/message.py]), the environment
    ([Environment/environment.py]) and the group chat extension
    ([Environment/groupchat.py]), followed by the properties of snapshots,
    rollback, visibility, trust scores and the step loop.

    Conventions of the embedding:
    - Python [int] time indices are [Z]; dictionaries are [gmap];
      Python lists are [list], appended at the right end.
    - [copy.deepcopy] yields an independent value equal to its argument; in
      a pure embedding values are never mutated in place, so it is the
      identity [deepcopy].
    - Trust scores and ratings are Python floats; they are read as exact
      rationals [Q] (the decimal literals [0.1], [0.45], [0.5] as the
      fractions they denote).  Module [Binary64] evaluates the same
      arithmetic on IEEE binary64 numbers.
    - What an agent does in [run_one_step] is not fixed by the environment:
      it is given as the trace of calls the agent makes on the environment
      (see [action]). *)

From Stdlib Require Import QArith Lqa Floats.
From stdpp Require Import gmap strings list fin_maps sorting pretty.

Local Open Scope string_scope.
Local Open Scope Z_scope.
Local Open Scope list_scope.

(** [copy.deepcopy]: an independent copy, equal as a value. *)
Definition deepcopy {A : Type} (x : A) : A := x.

(** ** Interaction/message.py *)

(** The [send_to] attribute: [None] (the constructor's default), one
    string (an agent name or ["ALL"]), or a list of names (the
    [isinstance(m.send_to, list)] branch of the pool). *)
Inductive recipient : Type :=
  | ToNone
  | ToName (s : string)
  | ToList (l : list string).

Record Message : Type := mkMessage {
  content : string;
  send_from : option string;
  send_to : recipient;
  timestamp : Q;
  msg_id : string
}.

(** ** Interaction/messagepool.py *)

Record MessagePool : Type := mkMessagePool {
  messages : list Message;
  history_snapshots : gmap Z (list Message)
}.

Module Pool.

(** [MessagePool.__init__] *)
Definition init : MessagePool :=
  {| messages := []; history_snapshots := ∅ |}.

(** [self.messages.append(msg)] *)
Definition update_message (msg : Message) (p : MessagePool) : MessagePool :=
  {| messages := messages p ++ [msg];
     history_snapshots := history_snapshots p |}.

(** The condition of the comprehension in [get_visibile_messages]:
    [m.send_to == "ALL" or (visibile in m.send_to
       if isinstance(m.send_to, list) else m.send_to == visibile)]. *)
Definition sees (visibile : string) (m : Message) : bool :=
  match send_to m with
  | ToName s => bool_decide (s = "ALL") || bool_decide (s = visibile)
  | ToList l => bool_decide (visibile ∈ l)
  | ToNone => false
  end.

Definition get_visibile_messages (visibile : string) (p : MessagePool)
  : list Message :=
  if decide (visibile = "all") then messages p
  else List.filter (sees visibile) (messages p).

(** The condition of the comprehension in [get_ones_messages]:
    [m.send_from == name or m.send_from == "all"]. *)
Definition sent_by (name : string) (m : Message) : bool :=
  bool_decide (send_from m = Some name)
  || bool_decide (send_from m = Some "all").

Definition get_ones_messages (name : string) (p : MessagePool)
  : list Message :=
  if decide (name = "all") then messages p
  else List.filter (sent_by name) (messages p).

(** [self.history_snapshots[time_index] = copy.deepcopy(self.messages)] *)
Definition snapshot_state (time_index : Z) (p : MessagePool) : MessagePool :=
  {| messages := messages p;
     history_snapshots :=
       <[time_index := deepcopy (messages p)]> (history_snapshots p) |}.

(** [if time_index in self.history_snapshots: self.messages = deepcopy(...)];
    without a snapshot the pool is left as it is. *)
Definition revert_state (time_index : Z) (p : MessagePool) : MessagePool :=
  match history_snapshots p !! time_index with
  | Some saved =>
      {| messages := deepcopy saved;
         history_snapshots := history_snapshots p |}
  | None => p
  end.

(** [keys_to_remove = [k for k in keys if k > time_index]], then one
    [del] per key. *)
Definition prune_snapshots_after (time_index : Z) (p : MessagePool)
  : MessagePool :=
  let keys_to_remove :=
    List.filter (fun k => bool_decide (k > time_index))
                (elements (dom (history_snapshots p))) in
  {| messages := messages p;
     history_snapshots :=
       foldl (fun h k => delete k h) (history_snapshots p) keys_to_remove |}.

(** [self.messages.clear(); self.history_snapshots.clear()] *)
Definition clear_pool (p : MessagePool) : MessagePool := init.

(** A run of [update_message] calls, in order. *)
Definition appends (msgs : list Message) (p : MessagePool) : MessagePool :=
  foldl (fun q m => update_message m q) p msgs.

(** The spec's wording of the by-sender query: every message with
    [from == id], in insertion order. *)
Definition by_sender_spec (id : string) (p : MessagePool) : list Message :=
  List.filter (fun m => bool_decide (send_from m = Some id)) (messages p).

(** [[m for m in self.messages if m.msg_id == msg_id]] *)
Definition find_messages_by_id (id : string) (p : MessagePool) : list Message :=
  List.filter (fun m => bool_decide (msg_id m = id)) (messages p).



End Pool.

(** ** Agent/agent.py: the part of [BaseAgent] the environment touches *)

(** [local_state]: the dictionary with the keys ["verified_facts"],
    ["history"] and ["backtrack_stack"]; the stack holds earlier local
    states. *)
#[warnings="-register-all"]
Inductive LocalState : Type :=
  mkLocalState (verified_facts : list string) (history : list string)
               (backtrack_stack : list LocalState).

Record Agent : Type := mkAgent {
  name : string;
  local_state : LocalState
}.

(** [BaseAgent.__init__]: three empty lists. *)
Definition fresh_agent (nm : string) : Agent :=
  {| name := nm; local_state := mkLocalState [] [] [] |}.

(** ** Environment/environment.py *)

(** One entry of [global_history]: the dictionary with the keys ["time"],
    ["message_pool"] and ["agents_state"]. *)
Record Snapshot : Type := mkSnapshot {
  snap_time : Z;
  snap_message_pool : list Message;
  snap_agents_state : gmap string LocalState
}.

(** The attributes of [Environment] that its methods read or write
    ([args] is an opaque configuration and [n] is [len(people)]). *)
Record Environment : Type := mkEnvironment {
  people : list Agent;
  message_pool : MessagePool;
  current_time : Z;
  global_history : gmap Z Snapshot;
  global_conflict_raised : bool;
  conflict_details : option string
}.

(** A call an agent makes while it runs: [send_message] on the bus (the
    environment stamps the message with a time and an id), [raise_conflict],
    or an assignment to the local state of agent number [i] (its own
    [checkpoint_state], [local_backtrack] or update of the verified facts,
    also when it happens inside [receive_message]). *)
Inductive action : Type :=
  | ASend (sender : string) (receiver : recipient) (msg_type : string)
          (body : string) (stamp : Q) (id : string)
  | ARaise (details : string)
  | ALocal (i : nat) (s : LocalState).

(** What the agents do in one pass of [for agent in self.people:
    agent.run_one_step()]: entry [i] is the trace of agent number [i]. *)
Definition behaviour : Type := list (list action).

Module Env.

(** [Environment.__init__] *)
Definition init (ppl : list Agent) : Environment :=
  {| people := ppl;
     message_pool := Pool.init;
     current_time := 0;
     global_history := ∅;
     global_conflict_raised := false;
     conflict_details := None |}.

Definition with_pool (p : MessagePool) (e : Environment) : Environment :=
  {| people := people e;
     message_pool := p;
     current_time := current_time e;
     global_history := global_history e;
     global_conflict_raised := global_conflict_raised e;
     conflict_details := conflict_details e |}.

(** [send_message]: the record goes into the pool; the deliveries are
    calls of [receive_message], whose effects are further actions of the
    trace. *)
Definition send_message (sender : string) (receiver : recipient)
    (msg_type body : string) (stamp : Q) (id : string) (e : Environment)
  : Environment :=
  let msg := {| content := body; send_from := Some sender;
                send_to := receiver; timestamp := stamp; msg_id := id |} in
  with_pool (Pool.update_message msg (message_pool e)) e.

(** [raise_conflict] *)
Definition raise_conflict (details : string) (e : Environment) : Environment :=
  {| people := people e;
     message_pool := message_pool e;
     current_time := current_time e;
     global_history := global_history e;
     global_conflict_raised := true;
     conflict_details := Some details |}.

(** Assignment to [agent.local_state] of agent number [i]. *)
Definition set_local (i : nat) (s : LocalState) (e : Environment) : Environment :=
  {| people := alter (fun a => {| name := name a; local_state := s |}) i (people e);
     message_pool := message_pool e;
     current_time := current_time e;
     global_history := global_history e;
     global_conflict_raised := global_conflict_raised e;
     conflict_details := conflict_details e |}.

Definition perform (e : Environment) (a : action) : Environment :=
  match a with
  | ASend sender receiver msg_type body stamp id =>
      send_message sender receiver msg_type body stamp id e
  | ARaise details => raise_conflict details e
  | ALocal i s => set_local i s e
  end.

(** [for agent in self.people: agent.run_one_step()] *)
Definition agents_run (b : behaviour) (e : Environment) : Environment :=
  foldl (fun e' i => foldl perform e' (default [] (b !! i)))
        e (seq 0 (length (people e))).

(** [snapshot["agents_state"][agent.name] = deepcopy(agent.local_state)]
    for every agent in order: a later agent of the same name overwrites
    an earlier one. *)
Definition agents_state_of (ppl : list Agent) : gmap string LocalState :=
  foldl (fun m a => <[name a := deepcopy (local_state a)]> m) ∅ ppl.

Definition take_snapshot (e : Environment) : Snapshot :=
  {| snap_time := current_time e;
     snap_message_pool := deepcopy (messages (message_pool e));
     snap_agents_state := agents_state_of (people e) |}.

(** [checkpoint_environment] *)
Definition checkpoint_environment (e : Environment) : Environment :=
  {| people := people e;
     message_pool := message_pool e;
     current_time := current_time e;
     global_history := <[current_time e := take_snapshot e]> (global_history e);
     global_conflict_raised := global_conflict_raised e;
     conflict_details := conflict_details e |}.

(** [for t in sorted(list(keys)): if t > target_time: del history[t]] *)
Definition discard_after (target_time : Z) (h : gmap Z Snapshot)
  : gmap Z Snapshot :=
  foldl (fun h' t => if decide (t > target_time) then delete t h' else h')
        h (merge_sort Z.le (elements (dom h))).

(** [if agent.name in snapshot["agents_state"]: agent.local_state = ...] *)
Definition restore_agent (snapshot : Snapshot) (a : Agent) : Agent :=
  match snap_agents_state snapshot !! name a with
  | Some s => {| name := name a; local_state := deepcopy s |}
  | None => a
  end.

(** [revert_environment]: returns at once when [target_time] has no
    snapshot. *)
Definition revert_environment (target_time : Z) (e : Environment)
  : Environment :=
  match global_history e !! target_time with
  | None => e
  | Some snapshot =>
      {| people := restore_agent snapshot <$> people e;
         message_pool :=
           {| messages := deepcopy (snap_message_pool snapshot);
              history_snapshots := history_snapshots (message_pool e) |};
         current_time := target_time;
         global_history := discard_after target_time (global_history e);
         global_conflict_raised := global_conflict_raised e;
         conflict_details := conflict_details e |}
  end.

(** The [while fallback_time >= 0] loop of [resolve_conflict].  The
    counter [n] stands for [fallback_time + 1]: the loop starts at
    [current_time - 1] and runs while the index is at least [0], so it
    makes at most [Z.to_nat current_time] passes; [break] is the return
    in the first branch. *)
Fixpoint fallback_loop (n : nat) (e : Environment) : Environment :=
  match n with
  | O => e
  | S k =>
      let fallback_time := Z.of_nat k in
      if decide (is_Some (global_history e !! fallback_time))
      then revert_environment fallback_time e
      else fallback_loop k e
  end.

Definition clear_conflict (e : Environment) : Environment :=
  {| people := people e;
     message_pool := message_pool e;
     current_time := current_time e;
     global_history := global_history e;
     global_conflict_raised := false;
     conflict_details := None |}.

(** [resolve_conflict] *)
Definition resolve_conflict (e : Environment) : Environment :=
  clear_conflict (fallback_loop (Z.to_nat (current_time e)) e).

(** [self.current_time += 1] *)
Definition tick (e : Environment) : Environment :=
  {| people := people e;
     message_pool := message_pool e;
     current_time := current_time e + 1;
     global_history := global_history e;
     global_conflict_raised := global_conflict_raised e;
     conflict_details := conflict_details e |}.

(** [if self.global_conflict_raised: self.resolve_conflict()] *)
Definition resolve_if_raised (e : Environment) : Environment :=
  if global_conflict_raised e then resolve_conflict e else e.

(** [run_time_step] *)
Definition run_time_step (b : behaviour) (e : Environment) : Environment :=
  resolve_if_raised (agents_run b (checkpoint_environment (tick e))).

(** [run_until_stable]: one [run_time_step] per iteration; [bs] lists
    what the agents do in each of the [max_iterations] steps. *)
Definition run_until_stable (bs : list behaviour) (e : Environment)
  : Environment :=
  foldl (fun e' b => run_time_step b e') e bs.

(** No agent calls [raise_conflict] in this pass. *)
Definition is_raise (a : action) : bool :=
  match a with ARaise _ => true | _ => false end.

Definition conflict_free (b : behaviour) : bool :=
  forallb (forallb (fun a => negb (is_raise a))) b.

(** Time indices start at [0] and only grow by one or go back to a
    recorded index, so the keys of [global_history] are never negative. *)
Definition history_nonneg (e : Environment) : Prop :=
  ∀ k, is_Some (global_history e !! k) → 0 ≤ k.

Definition wf (e : Environment) : Prop :=
  0 ≤ current_time e ∧ history_nonneg e.

(** The states of an environment: the initial one, and what the methods
    and the calls of the agents make of a state. *)
Inductive reachable (ppl : list Agent) : Environment → Prop :=
  | reach_init : reachable ppl (init ppl)
  | reach_perform e a : reachable ppl e → reachable ppl (perform e a)
  | reach_checkpoint e : reachable ppl e → reachable ppl (checkpoint_environment e)
  | reach_revert e T : reachable ppl e → reachable ppl (revert_environment T e)
  | reach_resolve e : reachable ppl e → reachable ppl (resolve_conflict e)
  | reach_step e b : reachable ppl e → reachable ppl (run_time_step b e).

(** What a pass of the agents leaves alone: the clock, the global
    history and the names of the agents; the pool only grows. *)
Record frame (e e' : Environment) : Prop := mkFrame {
  frame_time : current_time e' = current_time e;
  frame_history : global_history e' = global_history e;
  frame_pool : messages (message_pool e) `prefix_of` messages (message_pool e');
  frame_names : name <$> people e' = name <$> people e
}.

(** [broadcast_message]: the agents whose [receive_message] is called,
    in order: every agent whose name differs from the sender's. *)
Definition broadcast_targets (sender : string) (ppl : list Agent) : list Agent :=
  List.filter (fun a => negb (bool_decide (name a = sender))) ppl.

(** The deliveries of [send_message]: [broadcast_message] when the receiver
    is ["ALL"], otherwise the agents whose name equals the receiver (none
    when the receiver is not a string). *)
Definition delivered_to (sender : string) (receiver : recipient)
    (ppl : list Agent) : list Agent :=
  match receiver with
  | ToName r =>
      if decide (r = "ALL") then broadcast_targets sender ppl
      else List.filter (fun a => bool_decide (name a = r)) ppl
  | ToList _ | ToNone => []
  end.

(** The keys of the global history are times that have been reached, and
    every bundle carries its key in its ["time"] entry. *)
Definition history_ok (e : Environment) : Prop :=
  ∀ k s, global_history e !! k = Some s →
         0 ≤ k ≤ current_time e ∧ snap_time s = k.

(** The detail payload is there only while the flag is up. *)
Definition flag_ok (e : Environment) : Prop :=
  global_conflict_raised e = false → conflict_details e = None.

(** Some agent among the first [n] calls [raise_conflict] in this pass. *)
Definition raises_conflict (b : behaviour) (n : nat) : bool :=
  existsb (existsb is_raise) (take n b).

End Env.

(** ** Environment/groupchat.py *)

Record GroupChatEnvironment : Type := mkGroupChat {
  base : Environment;
  trust_graph : gmap string (gmap string Q);
  discussion_history : list string
}.

Module GroupChat.

Local Open Scope Q_scope.

(** Python's [min(a, b)] and [max(a, b)] on two arguments: the second is
    returned only when it is strictly smaller (larger) than the first. *)
Definition Qltb (x y : Q) : bool := negb (Qle_bool y x).
Definition py_min (a b : Q) : Q := if Qltb b a then b else a.
Definition py_max (a b : Q) : Q := if Qltb a b then b else a.

(** The inner loop of [_initialize_trust_graph]: the row of one agent. *)
Definition trust_row (ppl : list Agent) (agent : Agent) : gmap string Q :=
  foldl (fun row other =>
           if decide (name other ≠ name agent)
           then <[name other := 0.5]> row else row)
        ∅ ppl.

Definition _initialize_trust_graph (ppl : list Agent)
  : gmap string (gmap string Q) :=
  foldl (fun g agent => <[name agent := trust_row ppl agent]> g) ∅ ppl.

(** [GroupChatEnvironment.__init__] *)
Definition init (ppl : list Agent) : GroupChatEnvironment :=
  {| base := Env.init ppl;
     trust_graph := _initialize_trust_graph ppl;
     discussion_history := [] |}.

(** The arithmetic of [update_trust_score], from the old score and the
    rating to the new score. *)
Definition new_trust_score (old_score rating : Q) : Q :=
  let lr := 0.1 in
  let shift := 0.1 * rating - 0.45 in
  let new_score := old_score + lr * shift in
  py_max 0 (py_min 1 new_score).

(** [update_trust_score] on the graph.  [self.trust_graph[evaluator]]
    raises [KeyError] for an unknown evaluator: the result is [None] and
    the graph is as before.  [.get(evaluatee, 0.5)] supplies the default. *)
Definition update_trust_score (evaluator evaluatee : string) (rating : Q)
    (g : gmap string (gmap string Q)) : option (gmap string (gmap string Q)) :=
  match g !! evaluator with
  | None => None
  | Some row =>
      let old_score := default 0.5 (row !! evaluatee) in
      Some (<[evaluator := <[evaluatee := new_trust_score old_score rating]> row]> g)
  end.

(** The graphs that calls of [update_trust_score] produce from the
    initial one; a call that raised changed nothing. *)
Inductive reachable (ppl : list Agent) : gmap string (gmap string Q) → Prop :=
  | reach_init : reachable ppl (_initialize_trust_graph ppl)
  | reach_update g g' evaluator evaluatee rating :
      reachable ppl g →
      update_trust_score evaluator evaluatee rating g = Some g' →
      reachable ppl g'.

(** Reading [self.trust_graph[evaluator][evaluatee]]. *)
Definition score (evaluator evaluatee : string)
    (g : gmap string (gmap string Q)) : option Q :=
  match g !! evaluator with
  | Some row => row !! evaluatee
  | None => None
  end.

(** Every score stored in the graph lies in [[0, 1]]. *)
Definition bounded (g : gmap string (gmap string Q)) : Prop :=
  ∀ evaluator row evaluatee s,
    g !! evaluator = Some row → row !! evaluatee = Some s → 0 <= s <= 1.

(** The spec's [clamp(x, 0, 1)]. *)
Definition clamp01 (x : Q) : Q :=
  if Qltb x 0 then 0 else if Qltb 1 x then 1 else x.

Definition newline : string := String (Ascii.ascii_of_nat 10) "".

(** [f"{m.send_from}: {m.content}"]; a missing sender prints as [None]. *)
Definition summary_line (m : Message) : string :=
  (default "None" (send_from m) ++ ": " ++ content m)%string.

(** [summary_of_round] *)
Definition summary_of_round (round_index : nat) (g : GroupChatEnvironment)
  : string :=
  ("Round " ++ pretty round_index ++ " Summary:" ++ newline
     ++ String.concat newline
          (summary_line <$> messages (message_pool (base g))))%string.

Definition with_base (e : Environment) (g : GroupChatEnvironment)
  : GroupChatEnvironment :=
  {| base := e; trust_graph := trust_graph g;
     discussion_history := discussion_history g |}.

(** [run_round]: checkpoint, one pass of the agents, conflict resolution
    if the flag is up, then the summary is appended. *)
Definition run_round (round_index : nat) (b : behaviour)
    (g : GroupChatEnvironment) : GroupChatEnvironment :=
  let g1 :=
    with_base
      (Env.resolve_if_raised
         (Env.agents_run b (Env.checkpoint_environment (base g)))) g in
  {| base := base g1; trust_graph := trust_graph g1;
     discussion_history :=
       discussion_history g1 ++ [summary_of_round round_index g1] |}.

(** [start_discussion]: [run_round(i)] for [i] in [range(n_rounds)];
    [bs] lists what the agents do in each of the [n_rounds] rounds, and
    [i] counts the rounds already run. *)
Fixpoint rounds_from (i : nat) (bs : list behaviour)
    (g : GroupChatEnvironment) : GroupChatEnvironment :=
  match bs with
  | [] => g
  | b :: bs' => rounds_from (S i) bs' (run_round i b g)
  end.

Definition start_discussion (bs : list behaviour) (g : GroupChatEnvironment)
  : GroupChatEnvironment :=
  rounds_from 0 bs g.

(** The condition under which every round of a discussion keeps the
    clock: no conflict is pending and none is raised, or nothing is
    recorded below the current time. *)
Definition steady (bs : list behaviour) (g : GroupChatEnvironment) : Prop :=
  (global_conflict_raised (base g) = false
   ∧ Forall (fun b => Env.conflict_free b = true) bs)
  ∨ (∀ j : Z, (j < current_time (base g))%Z →
               global_history (base g) !! j = None).

(** [GroupChatEnvironment.start]: [start_discussion(n_rounds=3)], then
    [run_until_stable(max_iterations=20)]. *)
Definition start (rounds steps : nat → behaviour) (g : GroupChatEnvironment)
  : GroupChatEnvironment :=
  let g1 := start_discussion (rounds <$> seq 0 3) g in
  with_base (Env.run_until_stable (steps <$> seq 0 20) (base g1)) g1.

End GroupChat.

(** ** The trust update on IEEE binary64 numbers *)

Module Binary64.

Local Open Scope float_scope.

Definition py_min (a b : float) : float := if b <? a then b else a.
Definition py_max (a b : float) : float := if a <? b then b else a.

(** The same arithmetic as [GroupChat.new_trust_score], in binary64. *)
#[warnings="-inexact-float"]
Definition new_trust_score (old_score rating : float) : float :=
  let lr := 0.1 in
  let shift := 0.1 * rating - 0.45 in
  let new_score := old_score + lr * shift in
  py_max 0 (py_min 1 new_score).

Definition in_unit (x : float) : bool := (0 <=? x) && (x <=? 1).

End Binary64.

(** ** Agent/agent.py: local checkpoints and two of the roles *)

Module BaseAgent.

Definition verified_facts (s : LocalState) : list string :=
  match s with mkLocalState facts _ _ => facts end.

Definition history (s : LocalState) : list string :=
  match s with mkLocalState _ h _ => h end.

Definition backtrack_stack (s : LocalState) : list LocalState :=
  match s with mkLocalState _ _ stack => stack end.

(** [checkpoint_state]: a deep copy of the whole local state, stack
    included, is appended to the stack. *)
Definition checkpoint_state (s : LocalState) : LocalState :=
  mkLocalState (verified_facts s) (history s) (backtrack_stack s ++ [deepcopy s]).

(** [local_backtrack]: with a non-empty stack, the popped snapshot becomes
    the local state; otherwise nothing happens. *)
Definition local_backtrack (s : LocalState) : LocalState :=
  match last (backtrack_stack s) with
  | Some last_snapshot => last_snapshot
  | None => s
  end.

(** The number of local-state dictionaries a local state holds, itself and
    all the nested snapshots. *)
Fixpoint nodes (s : LocalState) : nat :=
  match s with
  | mkLocalState _ _ stack => S (list_sum (List.map nodes stack))
  end.

(** [self.local_state["verified_facts"].append(e)] for each [e]. *)
Definition add_facts (evidence_list : list string) (s : LocalState) : LocalState :=
  mkLocalState (verified_facts s ++ evidence_list) (history s) (backtrack_stack s).

End BaseAgent.


Module VerifierAgent.



End VerifierAgent.

Module AnswerAssemblerAgent.

(** [ready_for_final] *)
Definition ready_for_final (partial_answers : list string) : bool :=
  (3 <=? length partial_answers)%nat.

(** [assemble_answer] *)
Definition assemble_answer (partial_answers : list string) : string :=
  ("Integrated Answer: " ++ String.concat "; " partial_answers)%string.

(** [receive_message] on an [ASSERT] message carrying [verified_facts]:
    the new [partial_answers], and the final answer sent to the supervisor,
    if one is sent. *)
Definition receive_assert (new_facts : list string) (partial_answers : list string)
  : list string * option string :=
  let partial_answers' := partial_answers ++ new_facts in
  (partial_answers',
   if ready_for_final partial_answers'
   then Some (assemble_answer partial_answers') else None).

End AnswerAssemblerAgent.

(** ** Sample data for the concrete evaluations below *)

Module Sample.

Definition msg_to_bob : Message :=
  {| content := "hi"; send_from := Some "alice"; send_to := ToName "bob";
     timestamp := 0%Q; msg_id := "m1" |}.

Definition msg_from_all : Message :=
  {| content := "note"; send_from := Some "all"; send_to := ToName "ALL";
     timestamp := 0%Q; msg_id := "m2" |}.

(** A pool holding one message addressed to bob. *)
Definition pool_bob : MessagePool :=
  Pool.update_message msg_to_bob Pool.init.

(** A pool holding one message whose sender is the string ["all"]. *)
Definition pool_all : MessagePool :=
  Pool.update_message msg_from_all Pool.init.

(** A pool with a snapshot at 1 (empty) and a snapshot at 2 (one message). *)
Definition pool_two : MessagePool :=
  Pool.snapshot_state 2
    (Pool.update_message msg_to_bob (Pool.snapshot_state 1 Pool.init)).

(** Two agents; checkpoints at times 2 and 3 with a message sent after
    each; a conflict raised at time 4. *)
Definition two_agents : list Agent := [fresh_agent "alice"; fresh_agent "bob"].

Definition env_at_2 : Environment :=
  Env.checkpoint_environment (Env.tick (Env.tick (Env.init two_agents))).

Definition env_at_3 : Environment :=
  Env.checkpoint_environment
    (Env.tick
       (Env.send_message "alice" (ToName "bob") "INFORM" "q" 0%Q "m1" env_at_2)).

Definition env_conflict_at_4 : Environment :=
  Env.raise_conflict "clash"
    (Env.tick
       (Env.set_local 1 (mkLocalState ["fact"] [] [])
          (Env.send_message "bob" (ToName "ALL") "ASSERT" "r" 0%Q "m2" env_at_3))).

(** A fresh environment in which a conflict is raised at once. *)
Definition env_conflict_fresh : Environment :=
  Env.raise_conflict "clash"
    (Env.send_message "alice" (ToName "bob") "INFORM" "q" 0%Q "m1"
       (Env.init two_agents)).

(** Five passes without [raise_conflict]: alice asks in the first, bob
    answers and records a fact in the third. *)
Definition five_quiet_steps : list behaviour :=
  [ [ [ASend "alice" (ToName "bob") "INFORM" "q" 0%Q "m1"]; [] ];
    [];
    [ []; [ASend "bob" (ToName "ALL") "ASSERT" "r" 0%Q "m2";
           ALocal 1 (mkLocalState ["fact"] [] [])] ];
    [ [] ];
    [] ].

(** A group chat whose clock two empty time steps advanced to 2. *)
Definition chat_at_2 : GroupChatEnvironment :=
  GroupChat.with_base
    (Env.run_until_stable [ []; [] ] (Env.init two_agents))
    (GroupChat.init two_agents).

(** A round in which alice calls [raise_conflict]. *)
Definition round_with_conflict : behaviour := [ [ARaise "clash"]; [] ].

Definition msg_to_list : Message :=
  {| content := "later"; send_from := Some "bob";
     send_to := ToList ["alice"; "carol"]; timestamp := 2%Q; msg_id := "m2" |}.

(** A pool whose two messages carry distinct ids and ordered timestamps. *)
Definition pool_pair : MessagePool :=
  Pool.update_message msg_to_list pool_bob.

(** A time step in which bob calls [raise_conflict]. *)
Definition step_with_conflict : behaviour :=
  [ [ASend "alice" (ToName "bob") "INFORM" "again" 0%Q "m3"];
    [ARaise "clash"] ].



(** Two agents of the same name with different local states. *)
Definition twins : list Agent :=
  [ {| name := "twin"; local_state := mkLocalState ["first"] [] [] |};
    {| name := "twin"; local_state := mkLocalState ["second"] [] [] |} ].

End Sample.

(** * Properties *)

(** ** The message pool *)

Section PoolFacts.

Implicit Types (p : MessagePool) (m : Message) (msgs : list Message).

Lemma appends_messages msgs p :
  messages (Pool.appends msgs p) = messages p ++ msgs.
Proof.
  revert p. induction msgs as [|m msgs IH]; intros p; simpl.
  - by rewrite app_nil_r.
  - rewrite IH. simpl. by rewrite <- app_assoc.
Qed.

Lemma appends_history msgs p :
  history_snapshots (Pool.appends msgs p) = history_snapshots p.
Proof.
  revert p. induction msgs as [|m msgs IH]; intros p; simpl; [done|].
  by rewrite IH.
Qed.

Lemma filter_elem_of {A} (f : A → bool) (l : list A) (x : A) :
  x ∈ List.filter f l ↔ x ∈ l ∧ f x = true.
Proof. rewrite !list_elem_of_In. apply filter_In. Qed.

Lemma filter_sublist {A} (f : A → bool) (l : list A) :
  List.filter f l `sublist_of` l.
Proof.
  induction l as [|x l IH]; simpl; [constructor|].
  destruct (f x); by constructor.
Qed.

Lemma filter_ext_elem {A} (f g : A → bool) (l : list A) :
  (∀ x, x ∈ l → f x = g x) → List.filter f l = List.filter g l.
Proof.
  induction l as [|x l IH]; intros H; simpl; [done|].
  rewrite (H x) by left. rewrite IH; [done|].
  intros y Hy. apply H. by right.
Qed.

(** Deleting a list of keys one by one. *)
Lemma lookup_foldl_delete {V} (ks : list Z) (h : gmap Z V) (k : Z) :
  foldl (fun h' k' => delete k' h') h ks !! k
  = if decide (k ∈ ks) then None else h !! k.
Proof.
  revert h. induction ks as [|k0 ks IH]; intros h; simpl.
  - destruct (decide (k ∈ [])) as [Hin|_]; [by apply elem_of_nil in Hin | done].
  - rewrite IH. destruct (decide (k ∈ ks)) as [Hin|Hnin].
    + rewrite decide_True; [done | by right].
    + destruct (decide (k = k0)) as [->|Hne].
      * rewrite decide_True; [|by left]. apply lookup_delete_eq.
      * rewrite decide_False; [by rewrite lookup_delete_ne|].
        intros [->|?]%elem_of_cons; done.
Qed.

Lemma prune_lookup (T k : Z) p :
  history_snapshots (Pool.prune_snapshots_after T p) !! k
  = if decide (k > T)%Z then None else history_snapshots p !! k.
Proof.
  unfold Pool.prune_snapshots_after. simpl. rewrite lookup_foldl_delete.
  destruct (decide (k > T)%Z) as [Hgt|Hle].
  - case_decide as Hin; [done|].
    destruct (history_snapshots p !! k) as [v|] eqn:Hk; [|done].
    exfalso. apply Hin. apply filter_elem_of. split.
    + apply elem_of_elements, elem_of_dom. by exists v.
    + by apply bool_decide_eq_true.
  - case_decide as Hin; [|done].
    apply filter_elem_of in Hin as [_ Hin].
    by apply bool_decide_eq_true in Hin.
Qed.

End PoolFacts.

(** C1. Snapshot/revert round trip: appends through [update_message], then
    [snapshot_state T], then any further appends, then [revert_state T]
    leave the live sequence of the pool equal, element for element, to the
    sequence at the moment of the snapshot. *)
Theorem snapshot_revert_roundtrip (p : MessagePool) (before after : list Message) (T : Z) :
  messages
    (Pool.revert_state T
       (Pool.appends after (Pool.snapshot_state T (Pool.appends before p))))
  = messages (Pool.appends before p).
Proof.
  unfold Pool.revert_state.
  rewrite appends_history. simpl.
  by rewrite lookup_insert_eq.
Qed.

(** C3, as stated, fails: passing the broadcast sentinel ["ALL"] to
    [get_visibile_messages] does not return the entire sequence.  A message
    addressed to bob is in the pool and is missing from the result. *)
Lemma visible_sentinel_counterexample :
  Sample.msg_to_bob ∈ messages Sample.pool_bob
  ∧ send_to Sample.msg_to_bob = ToName "bob"
  ∧ (Sample.msg_to_bob ∉ Pool.get_visibile_messages "ALL" Sample.pool_bob)
  ∧ Pool.get_visibile_messages "ALL" Sample.pool_bob ≠ messages Sample.pool_bob.
Proof.
  assert (Pool.get_visibile_messages "ALL" Sample.pool_bob = []) as ->
    by reflexivity.
  split; [by left|]. split; [reflexivity|]. split.
  - apply not_elem_of_nil.
  - discriminate.
Qed.

(** C3, amended.  A message of the pool addressed to ["ALL"] is in the
    result for every argument.  A message addressed to one participant [q]
    (not the sentinel) is in the result for [q] and in the result for the
    wildcard ["all"], which is the entire sequence, and in the result for no
    other argument [x] (other than the wildcard).  Every result keeps the
    insertion order. *)
Theorem visibility_partition (p : MessagePool) (m : Message) :
  m ∈ messages p →
  (send_to m = ToName "ALL" → ∀ x, m ∈ Pool.get_visibile_messages x p)
  ∧ (∀ q, send_to m = ToName q → q ≠ "ALL" →
      m ∈ Pool.get_visibile_messages q p
      ∧ Pool.get_visibile_messages "all" p = messages p
      ∧ (∀ x, x ≠ q → x ≠ "all" → m ∉ Pool.get_visibile_messages x p))
  ∧ (∀ x, Pool.get_visibile_messages x p `sublist_of` messages p).
Proof.
  intros Hm. split; [|split].
  - intros Hall x. unfold Pool.get_visibile_messages.
    case_decide; [done|].
    apply filter_elem_of. split; [done|].
    unfold Pool.sees. rewrite Hall. by rewrite bool_decide_eq_true_2.
  - intros q Hq Hne. split; [|split].
    + unfold Pool.get_visibile_messages. case_decide; [done|].
      apply filter_elem_of. split; [done|].
      unfold Pool.sees. rewrite Hq.
      rewrite (bool_decide_eq_true_2 (q = q)) by done.
      apply orb_true_r.
    + reflexivity.
    + intros x Hxq Hxall. unfold Pool.get_visibile_messages.
      rewrite decide_False by done.
      rewrite filter_elem_of. intros [_ Hsees].
      unfold Pool.sees in Hsees. rewrite Hq in Hsees.
      apply orb_true_iff in Hsees as [H|H]; apply bool_decide_eq_true in H;
        congruence.
  - intros x. unfold Pool.get_visibile_messages.
    case_decide; [done|]. apply filter_sublist.
Qed.

(** The amended C3 at the sample pool: the message for bob, seen by bob. *)
Lemma visibility_partition_witness :
  Sample.msg_to_bob ∈ messages Sample.pool_bob
  ∧ Sample.msg_to_bob ∈ Pool.get_visibile_messages "bob" Sample.pool_bob.
Proof.
  assert (Sample.msg_to_bob ∈ messages Sample.pool_bob) as Hin by (by left).
  split; [exact Hin|].
  destruct (visibility_partition Sample.pool_bob Sample.msg_to_bob Hin)
    as (_ & Hone & _).
  destruct (Hone "bob" eq_refl) as (Hvis & _); [discriminate|exact Hvis].
Defined.

(** C4, as stated, fails: a message whose sender is the string ["all"] is
    returned for every name. *)
Lemma by_sender_counterexample :
  "bob" ≠ "all"
  ∧ Pool.get_ones_messages "bob" Sample.pool_all = [Sample.msg_from_all]
  ∧ send_from Sample.msg_from_all ≠ Some "bob"
  ∧ Pool.get_ones_messages "bob" Sample.pool_all
    ≠ Pool.by_sender_spec "bob" Sample.pool_all.
Proof. repeat split; discriminate. Qed.

(** C4, amended.  For [id] other than the wildcard ["all"],
    [get_ones_messages id] returns, in insertion order, exactly the messages
    whose [send_from] equals [id] or equals ["all"]; when no message of the
    pool has the sender ["all"], these are exactly the messages whose
    [send_from] equals [id]. *)
Theorem get_ones_messages_exact (p : MessagePool) (id : string) :
  id ≠ "all" →
  (∀ m, m ∈ Pool.get_ones_messages id p ↔
        m ∈ messages p ∧ (send_from m = Some id ∨ send_from m = Some "all"))
  ∧ Pool.get_ones_messages id p `sublist_of` messages p
  ∧ ((∀ m, m ∈ messages p → send_from m ≠ Some "all") →
       Pool.get_ones_messages id p = Pool.by_sender_spec id p).
Proof.
  intros Hid. unfold Pool.get_ones_messages, Pool.by_sender_spec.
  rewrite decide_False by done. split; [|split].
  - intros m. rewrite filter_elem_of. unfold Pool.sent_by.
    rewrite orb_true_iff, !bool_decide_eq_true. done.
  - apply filter_sublist.
  - intros Hno. apply filter_ext_elem. intros m Hm. unfold Pool.sent_by.
    rewrite (bool_decide_eq_false_2 (send_from m = Some "all")) by auto.
    apply orb_false_r.
Qed.

(** The amended C4 at the sample pool and the name ["alice"]. *)
Lemma get_ones_messages_exact_witness :
  "alice" ≠ "all"
  ∧ Pool.get_ones_messages "alice" Sample.pool_bob `sublist_of` messages Sample.pool_bob.
Proof.
  assert ("alice" ≠ "all") as Hne by discriminate.
  split; [exact Hne|].
  exact (proj1 (proj2 (get_ones_messages_exact Sample.pool_bob "alice" Hne))).
Defined.

(** ** The environment: checkpoints, rollback, conflict resolution *)

Section EnvFacts.

Implicit Types (e : Environment).

Lemma lookup_foldl_delete_if {V} (T : Z) (ks : list Z) (h : gmap Z V) (k : Z) :
  foldl (fun h' t => if decide (t > T) then delete t h' else h') h ks !! k
  = if decide (k ∈ ks ∧ k > T) then None else h !! k.
Proof.
  revert h. induction ks as [|k0 ks IH]; intros h; cbn [foldl].
  - destruct (decide (k ∈ [] ∧ k > T)) as [[Hin _]|_]; [|done].
    by apply elem_of_nil in Hin.
  - rewrite IH.
    destruct (decide (k ∈ ks ∧ k > T)) as [[Hin Hgt]|Hn];
      destruct (decide (k ∈ k0 :: ks ∧ k > T)) as [[Hin' Hgt']|Hn']; try done.
    + exfalso. apply Hn'. split; [by right|done].
    + apply elem_of_cons in Hin' as [->|Hin']; [|exfalso; by apply Hn].
      rewrite decide_True by done. apply lookup_delete_eq.
    + destruct (decide (k0 > T)); [|done].
      rewrite lookup_delete_ne; [done|].
      intros ->. apply Hn'. split; [by left|done].
Qed.

Lemma discard_after_lookup (T k : Z) (h : gmap Z Snapshot) :
  Env.discard_after T h !! k = if decide (k > T) then None else h !! k.
Proof.
  unfold Env.discard_after. rewrite lookup_foldl_delete_if.
  destruct (decide (k > T)) as [Hgt|Hle].
  - case_decide as Hin; [done|].
    destruct (h !! k) as [v|] eqn:Hk; [|done].
    exfalso. apply Hin. split; [|done].
    rewrite merge_sort_Permutation.
    apply elem_of_elements, elem_of_dom. by exists v.
  - rewrite decide_False; [done|]. by intros [_ ?].
Qed.

Lemma fallback_loop_miss (n : nat) e :
  (∀ j, 0 ≤ j < Z.of_nat n → global_history e !! j = None) →
  Env.fallback_loop n e = e.
Proof.
  induction n as [|n IH]; intros Hnone; simpl; [done|].
  rewrite decide_False.
  - apply IH. intros j Hj. apply Hnone. lia.
  - rewrite Hnone by lia. by intros [? ?].
Qed.

Lemma fallback_loop_hit (n : nat) e (k : Z) :
  0 ≤ k < Z.of_nat n →
  is_Some (global_history e !! k) →
  (∀ j, k < j < Z.of_nat n → global_history e !! j = None) →
  Env.fallback_loop n e = Env.revert_environment k e.
Proof.
  induction n as [|n IH]; intros Hk Hsome Hgap; simpl; [lia|].
  destruct (decide (k = Z.of_nat n)) as [->|Hne].
  - by rewrite decide_True.
  - rewrite decide_False.
    + apply IH; [lia|done|]. intros j Hj. apply Hgap. lia.
    + rewrite Hgap by lia. by intros [? ?].
Qed.

(** The largest recorded index in [[0, n)], when there is one. *)
Lemma latest_below (n : nat) (h : gmap Z Snapshot) :
  (∃ j, 0 ≤ j < Z.of_nat n ∧ is_Some (h !! j)) →
  ∃ k, 0 ≤ k < Z.of_nat n ∧ is_Some (h !! k)
       ∧ ∀ j, k < j < Z.of_nat n → h !! j = None.
Proof.
  induction n as [|n IH]; intros (j & Hj & Hsome); [lia|].
  destruct (h !! Z.of_nat n) as [v|] eqn:Hn.
  - exists (Z.of_nat n). split; [lia|]. split; [by rewrite Hn|]. lia.
  - destruct IH as (k & Hk & Hks & Hgap).
    + exists j. split; [|done].
      destruct (decide (j = Z.of_nat n)) as [->|?]; [|lia].
      rewrite Hn in Hsome. by destruct Hsome.
    + exists k. split; [lia|]. split; [done|].
      intros i Hi. destruct (decide (i = Z.of_nat n)) as [->|?]; [done|].
      apply Hgap. lia.
Qed.

Lemma revert_environment_hit (T : Z) e snapshot :
  global_history e !! T = Some snapshot →
  Env.revert_environment T e
  = {| people := Env.restore_agent snapshot <$> people e;
       message_pool :=
         {| messages := snap_message_pool snapshot;
            history_snapshots := history_snapshots (message_pool e) |};
       current_time := T;
       global_history := Env.discard_after T (global_history e);
       global_conflict_raised := global_conflict_raised e;
       conflict_details := conflict_details e |}.
Proof. intros H. unfold Env.revert_environment. by rewrite H. Qed.

(** Every agent has an entry in the bundle; with distinct names it is the
    agent's own local state. *)
Lemma agents_state_of_app ppl (a : Agent) :
  Env.agents_state_of (ppl ++ [a])
  = <[name a := local_state a]> (Env.agents_state_of ppl).
Proof. unfold Env.agents_state_of. by rewrite foldl_app. Qed.

Lemma agents_state_of_lookup ppl (a : Agent) :
  a ∈ ppl →
  is_Some (Env.agents_state_of ppl !! name a)
  ∧ (NoDup (name <$> ppl) →
     Env.agents_state_of ppl !! name a = Some (local_state a)).
Proof.
  induction ppl as [|x ppl IH] using rev_ind; intros Hin.
  - by apply elem_of_nil in Hin.
  - rewrite agents_state_of_app.
    apply elem_of_app in Hin as [Hin|Hin%list_elem_of_singleton].
    + destruct (IH Hin) as [Hsome Hnodup]. split.
      * destruct (decide (name x = name a)) as [->|Hne].
        -- rewrite lookup_insert_eq. by eexists.
        -- by rewrite lookup_insert_ne.
      * rewrite fmap_app. intros Hnd.
        apply NoDup_app in Hnd as (Hnd & Hdisj & _).
        rewrite lookup_insert_ne; [by apply Hnodup|].
        intros Heq. apply (Hdisj (name a)).
        -- apply list_elem_of_fmap. by exists a.
        -- rewrite <- Heq. simpl. by left.
    + subst x. rewrite lookup_insert_eq. split; [by eexists|done].
Qed.

(** Restoring from the bundle recorded in state [e0] gives back the agents
    of [e0], when their names are distinct and still the same. *)
Lemma restore_checkpoint (e0 : Environment) (ppl : list Agent) :
  NoDup (name <$> people e0) →
  name <$> ppl = name <$> people e0 →
  Env.restore_agent (Env.take_snapshot e0) <$> ppl = people e0.
Proof.
  intros Hnd Hnames. apply list_eq. intros i.
  rewrite list_lookup_fmap.
  assert ((name <$> ppl) !! i = (name <$> people e0) !! i) as Hi
    by (by rewrite Hnames).
  rewrite !list_lookup_fmap in Hi.
  destruct (ppl !! i) as [a|] eqn:Ha, (people e0 !! i) as [a0|] eqn:Ha0;
    simpl in *; try done.
  injection Hi as Hname. f_equal.
  unfold Env.restore_agent. simpl. rewrite Hname.
  destruct (agents_state_of_lookup (people e0) a0) as [_ Hlook].
  { by eapply list_elem_of_lookup_2. }
  rewrite (Hlook Hnd). by destruct a0.
Qed.

End EnvFacts.

(** The time indices of an environment never become negative. *)
Section EnvInvariant.

Implicit Types (e : Environment).

Lemma wf_init ppl : Env.wf (Env.init ppl).
Proof.
  split; [done|]. intros k [s Hs]. simpl in Hs.
  by apply lookup_empty_Some in Hs.
Qed.

Lemma wf_tick e : Env.wf e → Env.wf (Env.tick e).
Proof. intros [Ht Hh]. split; [simpl; lia | exact Hh]. Qed.

Lemma wf_checkpoint e : Env.wf e → Env.wf (Env.checkpoint_environment e).
Proof.
  intros [Ht Hh]. split; [done|]. intros k [s Hs]. simpl in Hs.
  apply lookup_insert_Some in Hs as [[<- _]|[_ Hs]]; [done|].
  apply Hh. by exists s.
Qed.

Lemma wf_perform e a : Env.wf e → Env.wf (Env.perform e a).
Proof. intros [Ht Hh]. by destruct a. Qed.

Lemma wf_performs e acts : Env.wf e → Env.wf (foldl Env.perform e acts).
Proof.
  revert e. induction acts as [|a acts IH]; intros e H; simpl; [done|].
  by apply IH, wf_perform.
Qed.

Lemma wf_agents_run b e : Env.wf e → Env.wf (Env.agents_run b e).
Proof.
  unfold Env.agents_run. generalize (seq 0 (length (people e))).
  intros l. revert e. induction l as [|i l IH]; intros e H; simpl; [done|].
  by apply IH, wf_performs.
Qed.

Lemma wf_revert T e : Env.wf e → Env.wf (Env.revert_environment T e).
Proof.
  intros [Ht Hh]. unfold Env.revert_environment.
  destruct (global_history e !! T) as [snapshot|] eqn:HT; [|done].
  split; simpl.
  - apply Hh. by exists snapshot.
  - intros k [s Hs]. simpl in Hs. rewrite discard_after_lookup in Hs.
    case_decide; [done|]. apply Hh. by exists s.
Qed.

Lemma wf_fallback_loop n e : Env.wf e → Env.wf (Env.fallback_loop n e).
Proof.
  induction n as [|n IH]; intros H; simpl; [done|].
  case_decide; [by apply wf_revert | by apply IH].
Qed.

Lemma wf_resolve_conflict e : Env.wf e → Env.wf (Env.resolve_conflict e).
Proof.
  intros H. unfold Env.resolve_conflict.
  by destruct (wf_fallback_loop (Z.to_nat (current_time e)) e H).
Qed.

Lemma wf_resolve_if_raised e : Env.wf e → Env.wf (Env.resolve_if_raised e).
Proof.
  intros H. unfold Env.resolve_if_raised.
  destruct (global_conflict_raised e); [by apply wf_resolve_conflict|done].
Qed.

Lemma wf_run_time_step b e : Env.wf e → Env.wf (Env.run_time_step b e).
Proof.
  intros H. unfold Env.run_time_step.
  by apply wf_resolve_if_raised, wf_agents_run, wf_checkpoint, wf_tick.
Qed.

Lemma wf_run_until_stable bs e : Env.wf e → Env.wf (Env.run_until_stable bs e).
Proof.
  unfold Env.run_until_stable. revert e.
  induction bs as [|b bs IH]; intros e H; simpl; [done|].
  by apply IH, wf_run_time_step.
Qed.

Lemma reachable_wf ppl e : Env.reachable ppl e → Env.wf e.
Proof.
  induction 1 as [|e a _ IH|e _ IH|e T _ IH|e _ IH|e b _ IH].
  - apply wf_init.
  - by apply wf_perform.
  - by apply wf_checkpoint.
  - by apply wf_revert.
  - by apply wf_resolve_conflict.
  - by apply wf_run_time_step.
Qed.

End EnvInvariant.

(** C2, as stated, fails for the pool: [revert_state] replaces the live
    sequence and keeps every snapshot.  After a successful revert to 1 the
    snapshot at 2 is still there. *)
Lemma pool_revert_keeps_later_counterexample :
  is_Some (history_snapshots Sample.pool_two !! 1)
  ∧ messages (Pool.revert_state 1 Sample.pool_two) = []
  ∧ history_snapshots (Pool.revert_state 1 Sample.pool_two) !! 2
    = Some [Sample.msg_to_bob].
Proof.
  split; [|split].
  - exists []. reflexivity.
  - reflexivity.
  - reflexivity.
Qed.

(** C2, amended.  After [revert_environment T] on an environment with a
    global snapshot at [T], the live sequence is the stored copy and no
    global snapshot with an index above [T] remains, while those up to [T]
    are kept.  After [revert_state T] on a pool with a snapshot at [T], the
    live sequence is the stored copy and the snapshots are all kept; it is
    [prune_snapshots_after T] that discards every snapshot above [T]. *)
Theorem revert_discards_later_snapshots :
  (∀ (e : Environment) (T : Z) (snapshot : Snapshot),
      global_history e !! T = Some snapshot →
      messages (message_pool (Env.revert_environment T e))
        = snap_message_pool snapshot
      ∧ (∀ k, T < k → global_history (Env.revert_environment T e) !! k = None)
      ∧ (∀ k, k ≤ T → global_history (Env.revert_environment T e) !! k
                       = global_history e !! k))
  ∧ (∀ (p : MessagePool) (T : Z) (saved : list Message),
      history_snapshots p !! T = Some saved →
      messages (Pool.revert_state T p) = saved
      ∧ history_snapshots (Pool.revert_state T p) = history_snapshots p
      ∧ (∀ k, T < k →
           history_snapshots
             (Pool.prune_snapshots_after T (Pool.revert_state T p)) !! k = None)).
Proof.
  split.
  - intros e T snapshot HT. rewrite (revert_environment_hit T e snapshot HT).
    simpl. split; [done|]. split; intros k Hk; rewrite discard_after_lookup.
    + rewrite decide_True; [done|lia].
    + rewrite decide_False; [done|lia].
  - intros p T saved HT. split; [|split].
    + unfold Pool.revert_state. by rewrite HT.
    + unfold Pool.revert_state. by rewrite HT.
    + intros k Hk. rewrite prune_lookup. rewrite decide_True; [done|lia].
Qed.

(** The amended C2 at the sample environment (revert to 2, the snapshot at
    3 is gone) and the sample pool (revert to 1, prune, the snapshot at 2 is
    gone). *)
Lemma revert_discards_later_snapshots_witness :
  global_history (Env.revert_environment 2 Sample.env_conflict_at_4) !! 3 = None
  ∧ history_snapshots
      (Pool.prune_snapshots_after 1 (Pool.revert_state 1 Sample.pool_two)) !! 2
    = None.
Proof.
  destruct revert_discards_later_snapshots as [Henv Hpool]. split.
  - destruct (Henv Sample.env_conflict_at_4 2 (Env.take_snapshot (Env.tick (Env.tick (Env.init Sample.two_agents)))))
      as (_ & Hgone & _); [reflexivity|].
    apply Hgone. lia.
  - destruct (Hpool Sample.pool_two 1 []) as (_ & _ & Hgone); [reflexivity|].
    apply Hgone. lia.
Defined.

(** C7. Conflict resolution target: with the conflict flag raised at current
    time [t] and a global snapshot at some index below [t],
    [resolve_conflict] reverts the system (the pool's messages and the local
    state of every participant recorded in the snapshot) to the largest index
    below [t] that has a global snapshot, and afterwards the flag and the
    detail payload are cleared; at time 4 with a snapshot at 3 the target
    is 3.  The keys of the global history are time indices, never negative
    ([reachable_wf]).  When the snapshot is the checkpoint of a state [e0]
    with distinct agent names, the agents and the pool are those of [e0]. *)
Theorem resolve_conflict_target (e : Environment) :
  global_conflict_raised e = true →
  Env.history_nonneg e →
  (∃ j, j < current_time e ∧ is_Some (global_history e !! j)) →
  ∃ k snapshot,
    k < current_time e
    ∧ global_history e !! k = Some snapshot
    ∧ (∀ j, j < current_time e → is_Some (global_history e !! j) → j ≤ k)
    ∧ (current_time e = 4 → is_Some (global_history e !! 3) → k = 3)
    ∧ Env.resolve_if_raised e = Env.resolve_conflict e
    ∧ Env.resolve_conflict e = Env.clear_conflict (Env.revert_environment k e)
    ∧ messages (message_pool (Env.resolve_conflict e)) = snap_message_pool snapshot
    ∧ people (Env.resolve_conflict e) = Env.restore_agent snapshot <$> people e
    ∧ (∀ i a s, people e !! i = Some a →
                snap_agents_state snapshot !! name a = Some s →
                people (Env.resolve_conflict e) !! i
                = Some {| name := name a; local_state := s |})
    ∧ (∀ e0, snapshot = Env.take_snapshot e0 →
             NoDup (name <$> people e0) →
             name <$> people e = name <$> people e0 →
             people (Env.resolve_conflict e) = people e0
             ∧ messages (message_pool (Env.resolve_conflict e))
               = messages (message_pool e0))
    ∧ current_time (Env.resolve_conflict e) = k
    ∧ (∀ j, k < j → global_history (Env.resolve_conflict e) !! j = None)
    ∧ global_conflict_raised (Env.resolve_conflict e) = false
    ∧ conflict_details (Env.resolve_conflict e) = None.
Proof.
  intros Hflag Hnn (j & Hj & Hsome).
  assert (Env.resolve_if_raised e = Env.resolve_conflict e) as Hif
    by (unfold Env.resolve_if_raised; by rewrite Hflag).
  clear Hflag.
  destruct (latest_below (Z.to_nat (current_time e)) (global_history e))
    as (k & Hk & Hks & Hgap).
  { exists j. split; [|done]. specialize (Hnn j Hsome).
    lia. }
  assert (0 ≤ current_time e) as Ht.
  { destruct (decide (0 ≤ current_time e)) as [|Hneg]; [done|].
    rewrite Z2Nat.nonpos in Hk by (clear -Hneg; lia).
    simpl in Hk. clear -Hk. lia. }
  rewrite Z2Nat.id in Hk, Hgap by done.
  destruct Hks as [snapshot Hsnap]. exists k, snapshot.
  assert (∀ i, i < current_time e → is_Some (global_history e !! i) → i ≤ k)
    as Hmax.
  { intros i Hi [s Hs]. destruct (decide (i ≤ k)) as [|Hgt]; [done|].
    rewrite Hgap in Hs by lia. done. }
  assert (Env.resolve_conflict e
          = Env.clear_conflict (Env.revert_environment k e)) as Hres.
  { unfold Env.resolve_conflict. f_equal.
    apply fallback_loop_hit; rewrite ?Z2Nat.id by done; [lia| |done].
    by exists snapshot. }
  split; [lia|]. split; [done|]. split; [done|].
  split. { intros H4 H3. specialize (Hmax 3 ltac:(lia) H3). lia. }
  split; [done|]. split; [done|].
  rewrite Hres, (revert_environment_hit k e snapshot Hsnap). simpl.
  split; [done|]. split; [done|].
  split.
  { intros i a s Ha Hs. rewrite list_lookup_fmap, Ha. simpl.
    unfold Env.restore_agent. by rewrite Hs. }
  split.
  { intros e0 -> Hnd Hnames. split; [|done]. by apply restore_checkpoint. }
  split; [done|]. split; [|done].
  intros i Hi. rewrite discard_after_lookup. rewrite decide_True; [done|lia].
Qed.

Lemma sample_env_at_3_wf : Env.wf Sample.env_at_3.
Proof.
  apply wf_checkpoint, wf_tick.
  apply (wf_perform _ (ASend "alice" (ToName "bob") "INFORM" "q" 0%Q "m1")).
  apply wf_checkpoint, wf_tick, wf_tick, wf_init.
Qed.

(** C7 at the scenario of the claim: a conflict at time 4 with snapshots at
    times 3 and 2; the system goes back to time 3, to the pool and the local
    states recorded then (the message and the fact that came later are
    gone), and the flag is cleared. *)
Lemma resolve_conflict_target_witness :
  current_time Sample.env_conflict_at_4 = 4
  ∧ is_Some (global_history Sample.env_conflict_at_4 !! 3)
  ∧ is_Some (global_history Sample.env_conflict_at_4 !! 2)
  ∧ current_time (Env.resolve_conflict Sample.env_conflict_at_4) = 3
  ∧ people (Env.resolve_conflict Sample.env_conflict_at_4) = people Sample.env_at_3
  ∧ messages (message_pool (Env.resolve_conflict Sample.env_conflict_at_4))
    = messages (message_pool Sample.env_at_3)
  ∧ global_conflict_raised (Env.resolve_conflict Sample.env_conflict_at_4) = false.
Proof.
  assert (is_Some (global_history Sample.env_conflict_at_4 !! 3)) as H3
    by (eexists; reflexivity).
  split; [reflexivity|]. split; [exact H3|].
  split; [eexists; reflexivity|].
  destruct (resolve_conflict_target Sample.env_conflict_at_4)
    as (k & snapshot & _ & Hsnap & _ & Hk & _ & _ & _ & _ & _ & Hall & Ht & _ & Hf & _).
  - reflexivity.
  - apply sample_env_at_3_wf.
  - exists 3. split; [reflexivity|exact H3].
  - assert (k = 3) as -> by (apply Hk; [reflexivity|exact H3]).
    destruct (Hall Sample.env_at_3) as [Hp Hm].
    + injection Hsnap as <-. reflexivity.
    + apply (NoDup_cons_2 "alice" ["bob"]); [|apply NoDup_singleton].
      intros Hin%list_elem_of_singleton. discriminate.
    + reflexivity.
    + split; [exact Ht|]. split; [exact Hp|]. split; [exact Hm|exact Hf].
Defined.

(** C8. Conflict resolution with no earlier snapshot: when the flag is
    raised and no global snapshot exists at any index below the current
    time, [resolve_conflict] returns with the flag and the detail payload
    cleared and the pool, every participant's local state, the current time
    (and the global history) unchanged. *)
Theorem resolve_conflict_no_snapshot (e : Environment) :
  global_conflict_raised e = true →
  (∀ j, j < current_time e → global_history e !! j = None) →
  Env.resolve_conflict e = Env.clear_conflict e
  ∧ Env.resolve_if_raised e = Env.clear_conflict e
  ∧ message_pool (Env.resolve_conflict e) = message_pool e
  ∧ people (Env.resolve_conflict e) = people e
  ∧ current_time (Env.resolve_conflict e) = current_time e
  ∧ global_history (Env.resolve_conflict e) = global_history e
  ∧ global_conflict_raised (Env.resolve_conflict e) = false
  ∧ conflict_details (Env.resolve_conflict e) = None.
Proof.
  intros Hflag Hnone.
  assert (Env.resolve_conflict e = Env.clear_conflict e) as Hres.
  { unfold Env.resolve_conflict. f_equal. apply fallback_loop_miss.
    intros j Hj. apply Hnone. lia. }
  split; [done|].
  split. { unfold Env.resolve_if_raised. by rewrite Hflag. }
  by rewrite Hres.
Qed.

(** C8 at a fresh environment in which a conflict is raised before any
    checkpoint: the message sent so far stays in the pool. *)
Lemma resolve_conflict_no_snapshot_witness :
  global_conflict_raised Sample.env_conflict_fresh = true
  ∧ message_pool (Env.resolve_conflict Sample.env_conflict_fresh)
    = message_pool Sample.env_conflict_fresh
  ∧ global_conflict_raised (Env.resolve_conflict Sample.env_conflict_fresh) = false.
Proof.
  split; [reflexivity|].
  destruct (resolve_conflict_no_snapshot Sample.env_conflict_fresh)
    as (_ & _ & Hp & _ & _ & _ & Hf & _).
  - reflexivity.
  - intros j _. reflexivity.
  - split; [exact Hp|exact Hf].
Defined.

(** ** The step loop *)

Section StepFacts.

Implicit Types (e : Environment) (a : action) (b : behaviour).

Lemma frame_refl e : Env.frame e e.
Proof. by split. Qed.

Lemma frame_trans e1 e2 e3 :
  Env.frame e1 e2 → Env.frame e2 e3 → Env.frame e1 e3.
Proof.
  intros [] []. split; try congruence. by etrans.
Qed.

Lemma perform_frame e a : Env.frame e (Env.perform e a).
Proof.
  destruct a; split; try done; simpl.
  - by apply prefix_app_r.
  - rewrite (list_fmap_alter name _ id).
    + by apply list_alter_id.
    + by apply Forall_forall.
Qed.

Lemma performs_frame e acts : Env.frame e (foldl Env.perform e acts).
Proof.
  revert e. induction acts as [|a acts IH]; intros e; simpl.
  - apply frame_refl.
  - eapply frame_trans; [apply perform_frame|apply IH].
Qed.

Lemma agents_run_frame b e : Env.frame e (Env.agents_run b e).
Proof.
  unfold Env.agents_run. generalize (seq 0 (length (people e))).
  intros l. revert e. induction l as [|i l IH]; intros e; simpl.
  - apply frame_refl.
  - eapply frame_trans; [apply performs_frame|apply IH].
Qed.

Lemma performs_flag e acts :
  forallb (fun a => negb (Env.is_raise a)) acts = true →
  global_conflict_raised (foldl Env.perform e acts) = global_conflict_raised e.
Proof.
  revert e. induction acts as [|a acts IH]; intros e H; simpl in *; [done|].
  apply andb_true_iff in H as [Ha Hacts].
  rewrite IH by done. by destruct a.
Qed.

Lemma conflict_free_lookup b (i : nat) :
  Env.conflict_free b = true →
  forallb (fun a => negb (Env.is_raise a)) (default [] (b !! i)) = true.
Proof.
  unfold Env.conflict_free. revert i.
  induction b as [|acts b IH]; intros i H; [done|].
  simpl in H. apply andb_true_iff in H as [Ha Hb].
  destruct i as [|i]; simpl; [done|]. by apply IH.
Qed.

Lemma agents_run_flag b e :
  Env.conflict_free b = true →
  global_conflict_raised (Env.agents_run b e) = global_conflict_raised e.
Proof.
  intros Hb. unfold Env.agents_run. generalize (seq 0 (length (people e))).
  intros l. revert e. induction l as [|i l IH]; intros e; simpl; [done|].
  rewrite IH. by apply performs_flag, conflict_free_lookup.
Qed.

End StepFacts.

Section RunFacts.

Implicit Types (e : Environment) (b : behaviour) (bs : list behaviour).

Local Abbreviation quiet bs := (Forall (fun b => Env.conflict_free b = true) bs).

(** One conflict-free step from a state without a pending conflict. *)
Lemma run_time_step_quiet b e :
  global_conflict_raised e = false →
  Env.conflict_free b = true →
  current_time (Env.run_time_step b e) = current_time e + 1
  ∧ global_conflict_raised (Env.run_time_step b e) = false
  ∧ global_history (Env.run_time_step b e)
    = <[current_time e + 1 := Env.take_snapshot (Env.tick e)]> (global_history e)
  ∧ messages (message_pool e)
      `prefix_of` messages (message_pool (Env.run_time_step b e)).
Proof.
  intros Hflag Hb. unfold Env.run_time_step, Env.resolve_if_raised.
  set (e1 := Env.checkpoint_environment (Env.tick e)).
  assert (global_conflict_raised (Env.agents_run b e1) = false) as Hf
    by (by rewrite (agents_run_flag b e1 Hb)).
  rewrite Hf.
  destruct (agents_run_frame b e1) as [Ht Hh Hp _].
  by rewrite Ht, Hh.
Qed.

Lemma run_until_stable_app bs1 bs2 e :
  Env.run_until_stable (bs1 ++ bs2) e
  = Env.run_until_stable bs2 (Env.run_until_stable bs1 e).
Proof. unfold Env.run_until_stable. apply foldl_app. Qed.

Lemma run_quiet bs e :
  global_conflict_raised e = false →
  quiet bs →
  current_time (Env.run_until_stable bs e) = current_time e + Z.of_nat (length bs)
  ∧ global_conflict_raised (Env.run_until_stable bs e) = false
  ∧ messages (message_pool e)
      `prefix_of` messages (message_pool (Env.run_until_stable bs e)).
Proof.
  intros Hflag Hq. revert e Hflag.
  induction Hq as [|b bs Hb Hq IH]; intros e Hflag.
  - simpl. split; [lia|]. by split.
  - destruct (run_time_step_quiet b e Hflag Hb) as (Ht & Hf & _ & Hp).
    destruct (IH (Env.run_time_step b e) Hf) as (Ht' & Hf' & Hp').
    change (Env.run_until_stable (b :: bs) e)
      with (Env.run_until_stable bs (Env.run_time_step b e)).
    split; [|split; [done|by etrans]].
    rewrite Ht', Ht. rewrite length_cons. lia.
Qed.

(** The global history after conflict-free steps: step number [i + 1]
    recorded the state the first [i] steps had produced, under the key
    it had just advanced the clock to. *)
Lemma run_history bs e (k : Z) :
  global_conflict_raised e = false →
  quiet bs →
  global_history (Env.run_until_stable bs e) !! k
  = if decide (current_time e < k ≤ current_time e + Z.of_nat (length bs))
    then Some (Env.take_snapshot
                 (Env.tick
                    (Env.run_until_stable
                       (take (Z.to_nat (k - current_time e - 1)) bs) e)))
    else global_history e !! k.
Proof.
  intros Hflag. induction bs as [|b bs IH] using rev_ind; intros Hq.
  - simpl. rewrite decide_False; [done|lia].
  - apply Forall_app in Hq as [Hq Hb]. rewrite Forall_singleton in Hb.
    specialize (IH Hq).
    destruct (run_quiet bs e Hflag Hq) as (Ht & Hf & _).
    rewrite run_until_stable_app.
    change (Env.run_until_stable [b] (Env.run_until_stable bs e))
      with (Env.run_time_step b (Env.run_until_stable bs e)).
    destruct (run_time_step_quiet b (Env.run_until_stable bs e) Hf Hb)
      as (_ & _ & Hh & _).
    rewrite Hh, Ht, length_app. simpl.
    destruct (decide (k = current_time e + Z.of_nat (length bs) + 1))
      as [->|Hne].
    + rewrite lookup_insert_eq. rewrite decide_True by lia.
      replace (Z.to_nat _) with (length bs) by lia.
      by rewrite take_app_length.
    + rewrite lookup_insert_ne by done. rewrite IH.
      destruct (decide (current_time e < k
                        ≤ current_time e + Z.of_nat (length bs))) as [Hin|Hout].
      * rewrite decide_True by lia.
        rewrite take_app_le by lia. done.
      * rewrite decide_False by lia. done.
Qed.

Lemma run_take_prefix bs e (i j : nat) :
  global_conflict_raised e = false →
  quiet bs →
  (i ≤ j)%nat →
  messages (message_pool (Env.run_until_stable (take i bs) e))
    `prefix_of` messages (message_pool (Env.run_until_stable (take j bs) e)).
Proof.
  intros Hflag Hq Hij.
  replace (take j bs) with (take i bs ++ drop i (take j bs)).
  2:{ rewrite <- (take_drop i (take j bs)) at 2.
      by rewrite take_take, Nat.min_l. }
  rewrite run_until_stable_app.
  destruct (run_quiet (take i bs) e Hflag) as (_ & Hf & _);
    [by apply Forall_take|].
  apply run_quiet; [done|]. by apply Forall_drop, Forall_take.
Qed.

End RunFacts.

(** C9. Step-loop checkpoint schedule.  [run_time_step] advances the clock
    and records the global checkpoint under the new time before any agent
    acts: the bundle holds the pool and the local states as they were before
    the step.  For a fresh environment and five conflict-free steps the
    global history has exactly the five keys 1 to 5, the entry at key
    [i + 1] is the state the first [i] steps produced, and the pool recorded
    at key [k] is no longer than the pool recorded at key [k + 1]. *)
Theorem step_loop_checkpoint_schedule (ppl : list Agent) (bs : list behaviour) :
  length bs = 5%nat →
  Forall (fun b => Env.conflict_free b = true) bs →
  (∀ b e,
      Env.run_time_step b e
      = Env.resolve_if_raised
          (Env.agents_run b (Env.checkpoint_environment (Env.tick e)))
      ∧ current_time (Env.agents_run b (Env.checkpoint_environment (Env.tick e)))
        = current_time e + 1
      ∧ global_history
          (Env.agents_run b (Env.checkpoint_environment (Env.tick e)))
          !! (current_time e + 1)
        = Some {| snap_time := current_time e + 1;
                  snap_message_pool := messages (message_pool e);
                  snap_agents_state := Env.agents_state_of (people e) |}
      ∧ (∀ a, a ∈ people e →
              is_Some (Env.agents_state_of (people e) !! name a)
              ∧ (NoDup (name <$> people e) →
                 Env.agents_state_of (people e) !! name a
                 = Some (local_state a))))
  ∧ dom (global_history (Env.run_until_stable bs (Env.init ppl)))
    = ({[ 1; 2; 3; 4; 5 ]} : gset Z)
  ∧ size (global_history (Env.run_until_stable bs (Env.init ppl))) = 5%nat
  ∧ (∀ i : nat, (i < 5)%nat →
       global_history (Env.run_until_stable bs (Env.init ppl)) !! (Z.of_nat i + 1)
       = Some (Env.take_snapshot
                 (Env.tick (Env.run_until_stable (take i bs) (Env.init ppl)))))
  ∧ (∀ k s s', 1 ≤ k < 5 →
       global_history (Env.run_until_stable bs (Env.init ppl)) !! k = Some s →
       global_history (Env.run_until_stable bs (Env.init ppl)) !! (k + 1) = Some s' →
       (length (snap_message_pool s) ≤ length (snap_message_pool s'))%nat).
Proof.
  intros Hlen Hq.
  assert (global_conflict_raised (Env.init ppl) = false) as Hflag by done.
  assert (∀ k, global_history (Env.run_until_stable bs (Env.init ppl)) !! k
               = if decide (0 < k ≤ 5)
                 then Some (Env.take_snapshot
                              (Env.tick
                                 (Env.run_until_stable
                                    (take (Z.to_nat (k - 1)) bs) (Env.init ppl))))
                 else None) as Hlook.
  { intros k. rewrite (run_history bs (Env.init ppl) k Hflag Hq).
    rewrite Hlen. change (current_time (Env.init ppl)) with 0.
    replace (k - 0 - 1) with (k - 1) by lia.
    destruct (decide (0 < k ≤ 0 + Z.of_nat 5)), (decide (0 < k ≤ 5));
      done || lia. }
  assert (dom (global_history (Env.run_until_stable bs (Env.init ppl)))
          = ({[ 1; 2; 3; 4; 5 ]} : gset Z)) as Hdom.
  { apply set_eq. intros k. rewrite elem_of_dom, Hlook.
    rewrite !elem_of_union, !elem_of_singleton.
    case_decide as Hk.
    - split; [lia|]. intros _. by eexists.
    - split; [by intros [? ?]|lia]. }
  split; [|split; [done|split; [|split]]].
  - intros b e. split; [done|].
    destruct (agents_run_frame b (Env.checkpoint_environment (Env.tick e)))
      as [Ht Hh _ _].
    rewrite Ht, Hh. simpl. rewrite lookup_insert_eq.
    split; [done|]. split; [done|].
    intros a Ha. by apply agents_state_of_lookup.
  - rewrite <- size_dom, Hdom. reflexivity.
  - intros i Hi. rewrite Hlook. rewrite decide_True by lia.
    by replace (Z.to_nat (Z.of_nat i + 1 - 1)) with i by lia.
  - intros k s s' Hk. rewrite !Hlook. rewrite !decide_True by lia.
    intros [= <-] [= <-]. simpl. apply prefix_length.
    apply run_take_prefix; [done|done|lia].
Qed.

(** C9 at two agents and five conflict-free passes. *)
Lemma step_loop_checkpoint_schedule_witness :
  dom (global_history
         (Env.run_until_stable Sample.five_quiet_steps (Env.init Sample.two_agents)))
  = ({[ 1; 2; 3; 4; 5 ]} : gset Z).
Proof.
  apply (step_loop_checkpoint_schedule Sample.two_agents Sample.five_quiet_steps).
  - reflexivity.
  - repeat constructor.
Defined.

(** ** Discussion rounds *)

Section RoundFacts.

Implicit Types (e : Environment) (g : GroupChatEnvironment)
  (b : behaviour) (bs : list behaviour).

(** The conflict check after a pass changes neither the clock nor the
    global history when no conflict is up or nothing is recorded below
    the current time. *)
Lemma resolve_if_raised_stays e :
  global_conflict_raised e = false
  ∨ (∀ j, j < current_time e → global_history e !! j = None) →
  current_time (Env.resolve_if_raised e) = current_time e
  ∧ global_history (Env.resolve_if_raised e) = global_history e
  ∧ message_pool (Env.resolve_if_raised e) = message_pool e
  ∧ people (Env.resolve_if_raised e) = people e.
Proof.
  intros H. unfold Env.resolve_if_raised.
  destruct (global_conflict_raised e) eqn:Hflag; [|done].
  destruct H as [?|Hnone]; [done|].
  unfold Env.resolve_conflict. rewrite fallback_loop_miss; [done|].
  intros j Hj. apply Hnone. lia.
Qed.

Lemma resolve_if_raised_flag e :
  global_conflict_raised (Env.resolve_if_raised e) = false.
Proof.
  unfold Env.resolve_if_raised.
  by destruct (global_conflict_raised e) eqn:Hflag.
Qed.

(** One round that keeps the clock: the checkpoint goes under the
    current time, over whatever was recorded there. *)
Lemma run_round_same_key (i : nat) b g :
  (global_conflict_raised (base g) = false ∧ Env.conflict_free b = true)
  ∨ (∀ j, j < current_time (base g) → global_history (base g) !! j = None) →
  current_time (base (GroupChat.run_round i b g)) = current_time (base g)
  ∧ global_history (base (GroupChat.run_round i b g))
    = <[current_time (base g) := Env.take_snapshot (base g)]>
        (global_history (base g)).
Proof.
  intros H. simpl.
  set (e1 := Env.agents_run b (Env.checkpoint_environment (base g))).
  destruct (agents_run_frame b (Env.checkpoint_environment (base g)))
    as [Ht Hh _ _]. fold e1 in Ht, Hh. simpl in Ht, Hh.
  destruct (resolve_if_raised_stays e1) as (Ht' & Hh' & _).
  - destruct H as [[Hflag Hb]|Hnone].
    + left. unfold e1. by rewrite agents_run_flag.
    + right. intros j Hj. rewrite Hh, Ht in *.
      rewrite lookup_insert_ne by lia. by apply Hnone.
  - by rewrite Ht', Hh', Ht, Hh.
Qed.

Lemma rounds_from_app (i : nat) bs1 bs2 g :
  GroupChat.rounds_from i (bs1 ++ bs2) g
  = GroupChat.rounds_from (i + length bs1) bs2 (GroupChat.rounds_from i bs1 g).
Proof.
  revert i g. induction bs1 as [|b bs1 IH]; intros i g; simpl.
  - by rewrite Nat.add_0_r.
  - rewrite IH. f_equal. lia.
Qed.

Lemma steady_round (i : nat) b bs g :
  GroupChat.steady (b :: bs) g →
  GroupChat.steady bs (GroupChat.run_round i b g).
Proof.
  intros H.
  destruct (run_round_same_key i b g) as [Ht Hh].
  { destruct H as [[Hf Hq]|Hnone]; [left|by right].
    split; [done|]. by apply Forall_cons in Hq as [? _]. }
  destruct H as [[Hf Hq]|Hnone].
  - left. split; [apply resolve_if_raised_flag|].
    by apply Forall_cons in Hq as [_ ?].
  - right. intros j Hj. rewrite Ht in Hj. rewrite Hh.
    rewrite lookup_insert_ne by lia. by apply Hnone.
Qed.

Lemma rounds_from_steady (i : nat) bs g :
  GroupChat.steady bs g →
  current_time (base (GroupChat.rounds_from i bs g)) = current_time (base g)
  ∧ ∀ k, k ≠ current_time (base g) →
         global_history (base (GroupChat.rounds_from i bs g)) !! k
         = global_history (base g) !! k.
Proof.
  revert i g. induction bs as [|b bs IH]; intros i g H; [done|].
  cbn [GroupChat.rounds_from].
  destruct (IH (S i) _ (steady_round i b bs g H)) as [Ht Hh].
  destruct (run_round_same_key i b g) as [Ht1 Hh1].
  { destruct H as [[Hf Hq]|Hnone]; [left|by right].
    split; [done|]. by apply Forall_cons in Hq as [? _]. }
  rewrite Ht, Ht1. split; [done|]. intros k Hk.
  rewrite Hh by (by rewrite Ht1). rewrite Hh1.
  by rewrite lookup_insert_ne.
Qed.

Lemma steady_head b bs g :
  GroupChat.steady (b :: bs) g →
  (global_conflict_raised (base g) = false ∧ Env.conflict_free b = true)
  ∨ (∀ j, j < current_time (base g) → global_history (base g) !! j = None).
Proof.
  intros [[Hf Hq]|Hnone]; [left|by right].
  split; [done|]. by apply Forall_cons in Hq as [? _].
Qed.

Lemma steady_rounds (i : nat) bs1 bs2 g :
  GroupChat.steady (bs1 ++ bs2) g →
  GroupChat.steady bs2 (GroupChat.rounds_from i bs1 g).
Proof.
  revert i g. induction bs1 as [|b bs1 IH]; intros i g H; [done|].
  cbn [GroupChat.rounds_from]. apply IH. by apply steady_round.
Qed.

Lemma steady_take (n : nat) bs g :
  GroupChat.steady bs g → GroupChat.steady (take n bs) g.
Proof.
  intros [[Hf Hq]|Hnone]; [left|by right]. split; [done|].
  by apply Forall_take.
Qed.

End RoundFacts.

(** C10, as stated, fails: [run_round] resolves a conflict raised during the
    round, and the rollback sets the clock back.  With the clock at 2 and
    snapshots at 1 and 2, a round in which an agent raises a conflict ends
    at time 1, its checkpoint at key 2 is discarded, and the next round of
    the discussion checkpoints under key 1. *)
Lemma run_round_moves_clock_counterexample :
  global_conflict_raised (base Sample.chat_at_2) = false
  ∧ current_time (base Sample.chat_at_2) = 2
  ∧ current_time
      (base (GroupChat.run_round 0 Sample.round_with_conflict Sample.chat_at_2)) = 1
  ∧ global_history
      (base (GroupChat.run_round 0 Sample.round_with_conflict Sample.chat_at_2)) !! 2
    = None
  ∧ current_time
      (base (GroupChat.start_discussion [Sample.round_with_conflict; []]
               Sample.chat_at_2)) = 1.
Proof. repeat split; reflexivity. Qed.

(** C10, amended.  [run_round] changes [current_time] only through the
    rollback of conflict resolution.  When no conflict is pending and none
    is raised in the rounds, or when no global snapshot is recorded below the
    current time (as in a fresh group chat, at time 0), every round leaves the
    clock where it is and stores its checkpoint under that one key,
    overwriting the bundle of the round before; the other keys of the
    global history are untouched, so the rounds of [start_discussion]
    (at least one) contribute the single entry at [current_time]. *)
Theorem rounds_share_one_key (g : GroupChatEnvironment) (bs : list behaviour) :
  GroupChat.steady bs g →
  current_time (base (GroupChat.start_discussion bs g)) = current_time (base g)
  ∧ (∀ (i : nat) b, bs !! i = Some b →
       current_time (base (GroupChat.start_discussion (take i bs) g))
       = current_time (base g)
       ∧ global_history (base (GroupChat.start_discussion (take (S i) bs) g))
         = <[current_time (base g) :=
               Env.take_snapshot (base (GroupChat.start_discussion (take i bs) g))]>
             (global_history (base g)))
  ∧ (∀ k, k ≠ current_time (base g) →
       global_history (base (GroupChat.start_discussion bs g)) !! k
       = global_history (base g) !! k)
  ∧ (bs ≠ [] →
     dom (global_history (base (GroupChat.start_discussion bs g)))
     = {[ current_time (base g) ]} ∪ dom (global_history (base g))).
Proof.
  intros Hst. unfold GroupChat.start_discussion.
  destruct (rounds_from_steady 0 bs g Hst) as [Ht Hh].
  assert (∀ (i : nat) b, bs !! i = Some b →
       current_time (base (GroupChat.rounds_from 0 (take i bs) g))
       = current_time (base g)
       ∧ global_history (base (GroupChat.rounds_from 0 (take (S i) bs) g))
         = <[current_time (base g) :=
               Env.take_snapshot (base (GroupChat.rounds_from 0 (take i bs) g))]>
             (global_history (base g))) as Hround.
  { intros i b Hb.
    destruct (rounds_from_steady 0 (take i bs) g (steady_take i bs g Hst))
      as [Hti Hhi].
    split; [done|].
    assert (GroupChat.steady (b :: drop (S i) bs)
                   (GroupChat.rounds_from 0 (take i bs) g)) as Hsti.
    { apply steady_rounds. by rewrite take_drop_middle. }
    rewrite (take_S_r bs i b Hb), rounds_from_app. cbn [GroupChat.rounds_from].
    destruct (run_round_same_key (0 + length (take i bs)) b
                (GroupChat.rounds_from 0 (take i bs) g)
                (steady_head _ _ _ Hsti)) as [_ Hh1].
    rewrite Hh1, Hti. apply map_eq. intros k.
    destruct (decide (k = current_time (base g))) as [->|Hne].
    - by rewrite !lookup_insert_eq.
    - rewrite !lookup_insert_ne by done. by apply Hhi. }
  split; [done|]. split; [done|]. split; [done|].
  intros Hne. destruct (exists_last Hne) as (bs' & b & ->).
  destruct (Hround (length bs') b) as [_ Hlast].
  { by rewrite lookup_app_r, Nat.sub_diag. }
  rewrite take_ge in Hlast by (rewrite length_app; simpl; lia).
  rewrite Hlast. apply dom_insert_L.
Qed.

(** The amended C10 at a fresh group chat: three rounds, two of them with
    a conflict raised, all checkpointing under the key 0. *)
Lemma rounds_share_one_key_witness :
  current_time
    (base (GroupChat.start_discussion
             [Sample.round_with_conflict; []; Sample.round_with_conflict]
             (GroupChat.init Sample.two_agents)))
  = current_time (base (GroupChat.init Sample.two_agents)).
Proof.
  apply (rounds_share_one_key (GroupChat.init Sample.two_agents)
           [Sample.round_with_conflict; []; Sample.round_with_conflict]).
  right. intros j _. reflexivity.
Defined.

(** ** Trust scores *)

Section TrustFacts.

Local Open Scope Q_scope.

Implicit Types (old rating x : Q) (g : gmap string (gmap string Q)).

Lemma Qltb_true x y : GroupChat.Qltb x y = true ↔ x < y.
Proof.
  unfold GroupChat.Qltb. rewrite negb_true_iff.
  destruct (Qle_bool y x) eqn:H.
  - apply Qle_bool_iff in H. split; [done|]. intros Hlt.
    exfalso. by apply (Qlt_not_le x y).
  - split; [|done]. intros _. apply Qnot_le_lt. intros Hle.
    apply Qle_bool_iff in Hle. congruence.
Qed.

Lemma Qltb_false x y : GroupChat.Qltb x y = false ↔ y <= x.
Proof.
  destruct (GroupChat.Qltb x y) eqn:H.
  - apply Qltb_true in H. split; [done|]. intros Hle.
    exfalso. by apply (Qlt_not_le x y).
  - split; [|done]. intros _. apply Qnot_lt_le. intros Hlt.
    apply Qltb_true in Hlt. congruence.
Qed.

(** The code's [max(0.0, min(1.0, x))] is the clamp of the spec. *)
Lemma py_clamp x :
  GroupChat.py_max 0 (GroupChat.py_min 1 x) == GroupChat.clamp01 x.
Proof.
  unfold GroupChat.py_max, GroupChat.py_min, GroupChat.clamp01.
  destruct (GroupChat.Qltb x 1) eqn:H1; destruct (GroupChat.Qltb x 0) eqn:H0;
    destruct (GroupChat.Qltb 1 x) eqn:H2;
    destruct (GroupChat.Qltb 0 x) eqn:H3;
    try (destruct (GroupChat.Qltb 0 1) eqn:H4);
    rewrite ?Qltb_true, ?Qltb_false in *; lra.
Qed.

Lemma clamp01_bounds x : 0 <= GroupChat.clamp01 x <= 1.
Proof.
  unfold GroupChat.clamp01.
  destruct (GroupChat.Qltb x 0) eqn:H0; [lra|].
  destruct (GroupChat.Qltb 1 x) eqn:H1; [lra|].
  rewrite Qltb_false in *. lra.
Qed.


Lemma new_trust_score_clamp old rating :
  GroupChat.new_trust_score old rating
  == GroupChat.clamp01 (old + 0.1 * (0.1 * rating - 0.45)).
Proof. unfold GroupChat.new_trust_score. apply py_clamp. Qed.

Lemma new_trust_score_bounds old rating :
  0 <= GroupChat.new_trust_score old rating <= 1.
Proof. rewrite new_trust_score_clamp. apply clamp01_bounds. Qed.

End TrustFacts.




Section TrustInvariant.

Local Open Scope Q_scope.

Implicit Types (g : gmap string (gmap string Q)) (ppl : list Agent).

(** The row of an agent: 0.5 for every other name of the list. *)
Lemma trust_row_lookup ppl (agent : Agent) (b : string) :
  GroupChat.trust_row ppl agent !! b
  = if decide (b ∈ name <$> ppl ∧ b ≠ name agent) then Some 0.5 else None.
Proof.
  unfold GroupChat.trust_row.
  assert (∀ l (row : gmap string Q),
    foldl (fun row other =>
             if decide (name other ≠ name agent)
             then <[name other := 0.5]> row else row) row l !! b
    = if decide (b ∈ name <$> l ∧ b ≠ name agent)
      then Some 0.5 else row !! b) as Hgen.
  { induction l as [|x l IH]; intros row; cbn [foldl fmap list_fmap].
    - destruct (decide (b ∈ [] ∧ b ≠ name agent)) as [[Hin _]|_]; [|done].
      by apply elem_of_nil in Hin.
    - rewrite IH.
      destruct (decide (b ∈ name <$> l ∧ b ≠ name agent)) as [[Hin Hne]|Hn].
      + rewrite decide_True; [done|]. split; [by right|done].
      + destruct (decide (b ∈ name x :: (name <$> l) ∧ b ≠ name agent))
          as [[Hin Hne]|Hn'].
        * apply elem_of_cons in Hin as [->|Hin]; [|exfalso; by apply Hn].
          rewrite decide_True by done. by rewrite lookup_insert_eq.
        * destruct (decide (name x ≠ name agent)) as [Hx|_]; [|done].
          rewrite lookup_insert_ne; [done|].
          intros <-. apply Hn'. split; [by left|done]. }
  rewrite Hgen. by rewrite lookup_empty.
Qed.

(** Every row of the initial graph is the row of an agent of the list. *)
Lemma initial_rows ppl (a : string) (row : gmap string Q) :
  GroupChat._initialize_trust_graph ppl !! a = Some row →
  ∃ agent, agent ∈ ppl ∧ name agent = a ∧ row = GroupChat.trust_row ppl agent.
Proof.
  unfold GroupChat._initialize_trust_graph.
  assert (∀ l g,
    foldl (fun g agent => <[name agent := GroupChat.trust_row ppl agent]> g) g l
      !! a = Some row →
    g !! a = Some row
    ∨ ∃ agent, agent ∈ l ∧ name agent = a
               ∧ row = GroupChat.trust_row ppl agent) as Hgen.
  { induction l as [|x l IH]; intros g Hl; cbn [foldl] in Hl; [by left|].
    destruct (IH _ Hl) as [Hg|(agent & Hin & Hname & Hrow)].
    - apply lookup_insert_Some in Hg as [[Hname Hrow]|[_ Hg]]; [|by left].
      right. exists x. split; [by left|done].
    - right. exists agent. split; [by right|done]. }
  intros Hl. destruct (Hgen _ _ Hl) as [Hempty|?]; [|done].
  by rewrite lookup_empty in Hempty.
Qed.

(** The initial graph: every stored score is 0.5. *)
Lemma initial_scores ppl (a b : string) (s : Q) :
  GroupChat.score a b (GroupChat._initialize_trust_graph ppl) = Some s →
  s = 0.5 ∧ a ≠ b.
Proof.
  unfold GroupChat.score.
  destruct (GroupChat._initialize_trust_graph ppl !! a) as [row|] eqn:Ha;
    [|done].
  destruct (initial_rows ppl a row Ha) as (agent & _ & Hname & ->).
  rewrite trust_row_lookup. case_decide as Hb; [|done].
  intros [= <-]. split; [done|]. destruct Hb as [_ Hb]. congruence.
Qed.

(** ... and every ordered pair of distinct names has one. *)
Lemma initial_pairwise ppl (a b : string) :
  a ∈ name <$> ppl → b ∈ name <$> ppl → a ≠ b →
  GroupChat.score a b (GroupChat._initialize_trust_graph ppl) = Some 0.5.
Proof.
  intros Ha Hb Hab.
  assert (is_Some (GroupChat._initialize_trust_graph ppl !! a)) as [row Hrow].
  { unfold GroupChat._initialize_trust_graph.
    assert (∀ l g,
      is_Some (g !! a) ∨ a ∈ name <$> l →
      is_Some (foldl (fun g agent =>
                        <[name agent := GroupChat.trust_row ppl agent]> g) g l
               !! a)) as Hgen.
    { induction l as [|x l IH]; intros g H; cbn [foldl].
      - destruct H as [?|Hin]; [done|]. by apply elem_of_nil in Hin.
      - apply IH. destruct (decide (name x = a)) as [<-|Hne].
        + left. rewrite lookup_insert_eq. by eexists.
        + rewrite lookup_insert_ne by done.
          destruct H as [?|Hin]; [by left|right].
          rewrite fmap_cons in Hin.
          by apply elem_of_cons in Hin as [?|?]. }
    apply Hgen. by right. }
  unfold GroupChat.score. rewrite Hrow.
  destruct (initial_rows ppl a row Hrow) as (agent & _ & Hname & ->).
  rewrite trust_row_lookup, decide_True; [done|].
  split; [done|]. congruence.
Qed.

Lemma initial_bounded ppl : GroupChat.bounded (GroupChat._initialize_trust_graph ppl).
Proof.
  intros a row b s Ha Hb.
  destruct (initial_scores ppl a b s) as [-> _].
  - unfold GroupChat.score. by rewrite Ha.
  - lra.
Qed.

(** One call keeps the bound, whatever the rating. *)
Lemma update_bounded g g' (evaluator evaluatee : string) (rating : Q) :
  GroupChat.bounded g →
  GroupChat.update_trust_score evaluator evaluatee rating g = Some g' →
  GroupChat.bounded g'.
Proof.
  intros Hg Hup. unfold GroupChat.update_trust_score in Hup.
  destruct (g !! evaluator) as [row|] eqn:Hrow; [|done].
  injection Hup as <-. intros a row' b s Ha Hb.
  apply lookup_insert_Some in Ha as [[<- <-]|[_ Ha]]; [|by eapply Hg].
  apply lookup_insert_Some in Hb as [[<- <-]|[_ Hb]]; [|by eapply Hg].
  apply new_trust_score_bounds.
Qed.

(** A call succeeds exactly when the evaluator has a row. *)
Lemma update_defined g (evaluator evaluatee : string) (rating : Q) :
  is_Some (g !! evaluator) ↔
  is_Some (GroupChat.update_trust_score evaluator evaluatee rating g).
Proof.
  unfold GroupChat.update_trust_score.
  destruct (g !! evaluator); split; intros [? ?]; by eauto.
Qed.

End TrustInvariant.

(** C6. Trust bound invariant: starting from the initial trust graph (every
    stored score is 0.5), after any finite sequence of [update_trust_score]
    calls with arbitrary ratings every score stored in the graph lies in
    [[0, 1]]. *)
Theorem trust_scores_bounded (ppl : list Agent) (g : gmap string (gmap string Q)) :
  GroupChat.reachable ppl g →
  ∀ evaluator evaluatee s,
    GroupChat.score evaluator evaluatee g = Some s → (0 <= s <= 1)%Q.
Proof.
  intros Hreach.
  assert (GroupChat.bounded g) as Hb.
  { induction Hreach as [|g g' evaluator evaluatee rating _ IH Hup].
    - apply initial_bounded.
    - by eapply update_bounded. }
  intros evaluator evaluatee s. unfold GroupChat.score.
  destruct (g !! evaluator) as [row|] eqn:Hrow; [|done].
  intros Hs. by eapply Hb.
Qed.

(** C6 after two calls with ratings outside [[0, 9]]: the score of bob in
    the eyes of alice, first pushed up by the rating 100 and then down by
    the rating -70, is still in [[0, 1]]. *)
Lemma trust_scores_bounded_witness :
  (0 <= GroupChat.new_trust_score (GroupChat.new_trust_score 0.5 100) (-70) <= 1)%Q.
Proof.
  assert (GroupChat.reachable Sample.two_agents
            (<[ "alice" :=
                  {[ "bob" := GroupChat.new_trust_score
                                 (GroupChat.new_trust_score 0.5 100) (-70) ]} ]>
               (GroupChat._initialize_trust_graph Sample.two_agents)))
    as Hreach.
  { eapply (GroupChat.reach_update _ _ _ "alice" "bob" (-70)%Q).
    - eapply (GroupChat.reach_update _ _ _ "alice" "bob" 100%Q).
      + apply GroupChat.reach_init.
      + reflexivity.
    - reflexivity. }
  exact (trust_scores_bounded _ _ Hreach "alice" "bob" _ eq_refl).
Defined.

(** ** The trust update on binary64 numbers *)

Section Binary64Facts.

Local Open Scope float_scope.

Lemma ltb_leb (x y : float) : (x <? y) = true → (x <=? y) = true.
Proof.
  rewrite ltb_spec, leb_spec. unfold SFltb, SFleb.
  by destruct (SFcompare (Prim2SF x) (Prim2SF y)) as [[]|].
Qed.

(** For every pair of binary64 arguments, infinities and NaN included,
    the new score is in [[0, 1]]. *)
Lemma binary64_new_trust_score_in_unit (old_score rating : float) :
  Binary64.in_unit (Binary64.new_trust_score old_score rating) = true.
Proof.
  unfold Binary64.new_trust_score, Binary64.py_max, Binary64.py_min.
  set (x := old_score + _).
  destruct (x <? 1) eqn:H1.
  - destruct (0 <? x) eqn:H0; [|reflexivity].
    unfold Binary64.in_unit. by rewrite !ltb_leb.
  - reflexivity.
Qed.

(** The three ratings of the claim at the prior score 0.5, in binary64:
    the changes are +0.005, +0.045 and -0.045 up to rounding; for the
    rating 9 the new score is far from 0.536. *)
#[warnings="-inexact-float"]
Lemma binary64_three_ratings :
  Binary64.new_trust_score 0.5 5 = 0.505
  ∧ Binary64.new_trust_score 0.5 9 = 0.54500000000000004
  ∧ Binary64.new_trust_score 0.5 0 = 0.45500000000000002
  ∧ (0.544 <? Binary64.new_trust_score 0.5 9) = true.
Proof. repeat split; reflexivity. Qed.

End Binary64Facts.

(** * Further properties of the message pool *)

Section PoolQueries.

Implicit Types (p : MessagePool) (m : Message) (msgs : list Message).

Lemma update_message_filter (f : Message → bool) m p :
  List.filter f (messages (Pool.update_message m p))
  = List.filter f (messages p) ++ (if f m then [m] else []).
Proof. simpl. rewrite List.filter_app. simpl. by destruct (f m). Qed.


Lemma filter_none {A} (f : A → bool) (l : list A) :
  (∀ x, x ∈ l → f x = false) → List.filter f l = [].
Proof.
  induction l as [|x l IH]; intros H; simpl; [done|].
  rewrite (H x) by left. apply IH. intros y Hy. apply H. by right.
Qed.

End PoolQueries.

(** X1. Snapshot isolation: after [snapshot_state T], appends to the pool
    leave the snapshot at [T] equal to the sequence at the time of the call
    and leave every other snapshot alone; a second [snapshot_state T]
    replaces it with the sequence of that later moment. *)
Theorem snapshot_survives_appends (p : MessagePool) (T : Z) (msgs : list Message) :
  history_snapshots (Pool.appends msgs (Pool.snapshot_state T p)) !! T
  = Some (messages p)
  ∧ (∀ k, k ≠ T →
       history_snapshots (Pool.appends msgs (Pool.snapshot_state T p)) !! k
       = history_snapshots p !! k)
  ∧ history_snapshots
      (Pool.snapshot_state T (Pool.appends msgs (Pool.snapshot_state T p))) !! T
    = Some (messages p ++ msgs).
Proof.
  split; [|split].
  - rewrite appends_history. simpl. apply lookup_insert_eq.
  - intros k Hk. rewrite appends_history. simpl. by rewrite lookup_insert_ne.
  - simpl. rewrite lookup_insert_eq, appends_messages. done.
Qed.

(** X1 at the sample pool with a snapshot at 2 and one further append. *)
Lemma snapshot_survives_appends_witness :
  history_snapshots
    (Pool.appends [Sample.msg_to_list] (Pool.snapshot_state 2 Sample.pool_two)) !! 1
  = history_snapshots Sample.pool_two !! 1.
Proof.
  apply (snapshot_survives_appends Sample.pool_two 2 [Sample.msg_to_list]).
  discriminate.
Defined.



(** X3. [prune_snapshots_after T] deletes exactly the snapshots with a key
    above [T]: the live sequence and the snapshots up to [T] stay as they
    are, and two prunes amount to one prune at the smaller index. *)
Theorem prune_snapshots_after_exact (p : MessagePool) (T T' : Z) :
  messages (Pool.prune_snapshots_after T p) = messages p
  ∧ (∀ k, history_snapshots (Pool.prune_snapshots_after T p) !! k
          = if decide (k ≤ T) then history_snapshots p !! k else None)
  ∧ Pool.prune_snapshots_after T (Pool.prune_snapshots_after T' p)
    = Pool.prune_snapshots_after (Z.min T T') p.
Proof.
  assert (∀ q U k, history_snapshots (Pool.prune_snapshots_after U q) !! k
                   = if decide (k ≤ U) then history_snapshots q !! k else None)
    as Hlook.
  { intros q U k. rewrite prune_lookup.
    destruct (decide (k > U)), (decide (k ≤ U)); done || lia. }
  split; [done|]. split; [apply Hlook|].
  assert (∀ q q', messages q = messages q' →
                  history_snapshots q = history_snapshots q' → q = q') as Hext.
  { intros [] [] ? ?. simpl in *. by subst. }
  apply Hext; [done|]. apply map_eq. intros k. rewrite !Hlook.
  destruct (decide (k ≤ T)), (decide (k ≤ T')), (decide (k ≤ Z.min T T'));
    done || lia.
Qed.

(** X4. Lookup by id: in a pool whose message ids are pairwise distinct,
    [find_messages_by_id] returns at most one message, and for the id of a
    message of the pool it returns exactly that message. *)
Theorem find_messages_by_id_unique (p : MessagePool) :
  NoDup (msg_id <$> messages p) →
  (∀ id, (length (Pool.find_messages_by_id id p) ≤ 1)%nat)
  ∧ (∀ m, m ∈ messages p → Pool.find_messages_by_id (msg_id m) p = [m])
  ∧ (∀ id, id ∉ msg_id <$> messages p → Pool.find_messages_by_id id p = []).
Proof.
  unfold Pool.find_messages_by_id. generalize (messages p). clear p.
  intros l Hnd.
  assert (∀ id, id ∉ msg_id <$> l →
            List.filter (fun m => bool_decide (msg_id m = id)) l = []) as Hnone.
  { intros id Hid. apply filter_none. intros x Hx.
    apply bool_decide_eq_false. intros Heq. apply Hid.
    apply list_elem_of_fmap. by exists x. }
  assert (∀ m, m ∈ l →
            List.filter (fun m' => bool_decide (msg_id m' = msg_id m)) l = [m])
    as Hone.
  { clear Hnone. induction l as [|x l IH]; intros m Hm.
    - by apply elem_of_nil in Hm.
    - rewrite fmap_cons in Hnd. apply NoDup_cons in Hnd as [Hx Hnd].
      simpl. apply elem_of_cons in Hm as [->|Hm].
      + rewrite bool_decide_eq_true_2 by done. f_equal.
        apply filter_none. intros y Hy. apply bool_decide_eq_false.
        intros Heq. apply Hx. apply list_elem_of_fmap. by exists y.
      + rewrite bool_decide_eq_false_2; [by apply IH|].
        intros Heq. apply Hx. apply list_elem_of_fmap. by exists m. }
  split; [|split; [done|done]].
  intros id. destruct (decide (id ∈ msg_id <$> l)) as [Hin|Hnin].
  - apply list_elem_of_fmap in Hin as (m & -> & Hm). by rewrite Hone.
  - rewrite Hnone by done. simpl. lia.
Qed.

(** X4 at the sample pool of two messages. *)
Lemma find_messages_by_id_unique_witness :
  Pool.find_messages_by_id "m1" Sample.pool_pair = [Sample.msg_to_bob].
Proof.
  assert (NoDup (msg_id <$> messages Sample.pool_pair)) as Hnd.
  { apply (NoDup_cons_2 "m1" ["m2"]); [|apply NoDup_singleton].
    intros Hin%list_elem_of_singleton. discriminate. }
  destruct (find_messages_by_id_unique Sample.pool_pair Hnd) as (_ & Hone & _).
  apply (Hone Sample.msg_to_bob). by left.
Defined.



(** X6. Recipient lists: a message of the pool addressed to a list of names
    is returned by [get_visibile_messages x], for [x] other than the
    wildcard, exactly when [x] is in the list; a message without recipient is
    returned for the wildcard only. *)
Theorem visible_list_recipient (p : MessagePool) (m : Message) (x : string) :
  m ∈ messages p →
  x ≠ "all" →
  (∀ l, send_to m = ToList l → (m ∈ Pool.get_visibile_messages x p ↔ x ∈ l))
  ∧ (send_to m = ToNone → m ∉ Pool.get_visibile_messages x p)
  ∧ m ∈ Pool.get_visibile_messages "all" p.
Proof.
  intros Hm Hx. unfold Pool.get_visibile_messages.
  rewrite decide_False by done. split; [|split].
  - intros l Hl. rewrite filter_elem_of. unfold Pool.sees. rewrite Hl.
    rewrite bool_decide_eq_true. split; [by intros [_ ?]|by split].
  - intros Hnone. rewrite filter_elem_of. unfold Pool.sees. rewrite Hnone.
    by intros [_ ?].
  - done.
Qed.

(** X6 at the sample pool: the message for alice and carol, seen by carol. *)
Lemma visible_list_recipient_witness :
  Sample.msg_to_list ∈ Pool.get_visibile_messages "carol" Sample.pool_pair.
Proof.
  destruct (visible_list_recipient Sample.pool_pair Sample.msg_to_list "carol")
    as (Hlist & _ & _).
  - right. by left.
  - discriminate.
  - apply (Hlist ["alice"; "carol"] eq_refl). right. by left.
Defined.

(** X7. Views grow at the end: appending messages to the pool extends what
    [get_visibile_messages] and [get_ones_messages] return for any argument
    by a suffix; the messages returned before stay, in the same order and at
    the same positions. *)
Theorem views_grow_at_the_end (p : MessagePool) (msgs : list Message) (x : string) :
  Pool.get_visibile_messages x p
    `prefix_of` Pool.get_visibile_messages x (Pool.appends msgs p)
  ∧ Pool.get_ones_messages x p
    `prefix_of` Pool.get_ones_messages x (Pool.appends msgs p)
  ∧ Pool.find_messages_by_id x p
    `prefix_of` Pool.find_messages_by_id x (Pool.appends msgs p).
Proof.
  unfold Pool.get_visibile_messages, Pool.get_ones_messages,
    Pool.find_messages_by_id.
  rewrite appends_messages.
  split; [|split]; try case_decide; rewrite ?List.filter_app;
    by apply prefix_app_r.
Qed.

Section StringFacts.




End StringFacts.



(** * Further properties of the environment *)

Section Deliveries.

Implicit Types (e : Environment) (a : Agent) (ppl : list Agent).

Lemma delivered_to_elem sender receiver ppl a :
  a ∈ Env.delivered_to sender receiver ppl ↔
  a ∈ ppl ∧ ((receiver = ToName "ALL" ∧ name a ≠ sender)
             ∨ (receiver = ToName (name a) ∧ name a ≠ "ALL")).
Proof.
  unfold Env.delivered_to, Env.broadcast_targets.
  destruct receiver as [|r|l].
  - split; [by intros ?%elem_of_nil|]. intros [_ [[? _]|[? _]]]; done.
  - destruct (decide (r = "ALL")) as [->|Hr].
    + rewrite filter_elem_of, negb_true_iff, bool_decide_eq_false.
      split.
      * intros [? ?]. split; [done|]. by left.
      * intros [? [[_ ?]|[[= Heq] Hne]]]; [done|]. congruence.
    + rewrite filter_elem_of, bool_decide_eq_true. split.
      * intros [? <-]. split; [done|]. by right.
      * intros [? [[[= ?] _]|[[= ->] _]]]; done.
  - split; [by intros ?%elem_of_nil|]. intros [_ [[? _]|[? _]]]; done.
Qed.

End Deliveries.

(** X9. Delivery and visibility agree: every agent to which [send_message]
    delivers the message (all agents but the sender for the receiver
    ["ALL"], the agents of that name otherwise) finds the recorded message,
    the last of the pool, in its own view [get_visibile_messages(name)]. *)
Theorem delivered_can_see (e : Environment) (a : Agent)
    (sender : string) (receiver : recipient) (msg_type body : string)
    (stamp : Q) (id : string) :
  a ∈ Env.delivered_to sender receiver (people e) →
  a ∈ people e
  ∧ (receiver = ToName "ALL" → name a ≠ sender)
  ∧ last (messages (message_pool
                      (Env.send_message sender receiver msg_type body stamp id e)))
    = Some {| content := body; send_from := Some sender; send_to := receiver;
              timestamp := stamp; msg_id := id |}
  ∧ {| content := body; send_from := Some sender; send_to := receiver;
       timestamp := stamp; msg_id := id |}
    ∈ Pool.get_visibile_messages (name a)
        (message_pool (Env.send_message sender receiver msg_type body stamp id e)).
Proof.
  intros Ha. apply delivered_to_elem in Ha as [Hin Hcase].
  split; [done|]. split.
  { intros ->. destruct Hcase as [[_ ?]|[[= <-] ?]]; done. }
  split; [apply last_snoc|].
  unfold Pool.get_visibile_messages. case_decide.
  - simpl. apply elem_of_app. right. by left.
  - apply filter_elem_of. split.
    + simpl. apply elem_of_app. right. by left.
    + unfold Pool.sees. simpl.
      destruct Hcase as [[-> _]|[-> _]].
      * by rewrite bool_decide_eq_true_2.
      * rewrite (bool_decide_eq_true_2 (name a = name a)) by done.
        apply orb_true_r.
Qed.

(** X9 at two agents: alice broadcasts, bob is delivered to and sees it. *)
Lemma delivered_can_see_witness :
  fresh_agent "bob"
    ∈ Env.delivered_to "alice" (ToName "ALL") (people (Env.init Sample.two_agents))
  ∧ (fresh_agent "alice"
       ∉ Env.delivered_to "alice" (ToName "ALL")
           (people (Env.init Sample.two_agents)))
  ∧ fresh_agent "bob" ∈ people (Env.init Sample.two_agents).
Proof.
  assert (fresh_agent "bob"
            ∈ Env.delivered_to "alice" (ToName "ALL")
                (people (Env.init Sample.two_agents))) as Hbob by (by left).
  split; [exact Hbob|]. split.
  - intros Hin%list_elem_of_singleton. discriminate.
  - exact (proj1 (delivered_can_see (Env.init Sample.two_agents)
                    (fresh_agent "bob") "alice" (ToName "ALL")
                    "INFORM" "q" 0%Q "m1" Hbob)).
Defined.

(** X10. Direct messages: for a receiver name other than ["ALL"], the
    message is delivered to the agents of that name and to no one else (the
    sender included, when it addresses itself); with distinct agent names
    that is at most one agent; when no agent has the name, nothing is
    delivered and the message is recorded in the pool all the same. *)
Theorem direct_message_delivery (e : Environment) (sender r : string)
    (msg_type body : string) (stamp : Q) (id : string) :
  r ≠ "ALL" →
  (∀ a, a ∈ Env.delivered_to sender (ToName r) (people e) ↔
        a ∈ people e ∧ name a = r)
  ∧ (NoDup (name <$> people e) →
     (length (Env.delivered_to sender (ToName r) (people e)) ≤ 1)%nat)
  ∧ ((∀ a, a ∈ people e → name a ≠ r) →
     Env.delivered_to sender (ToName r) (people e) = []
     ∧ messages (message_pool
                   (Env.send_message sender (ToName r) msg_type body stamp id e))
       = messages (message_pool e)
         ++ [ {| content := body; send_from := Some sender;
                 send_to := ToName r; timestamp := stamp; msg_id := id |} ]).
Proof.
  intros Hr.
  assert (Env.delivered_to sender (ToName r) (people e)
          = List.filter (fun a => bool_decide (name a = r)) (people e)) as ->.
  { unfold Env.delivered_to. by rewrite decide_False. }
  split; [|split].
  - intros a. by rewrite filter_elem_of, bool_decide_eq_true.
  - generalize (people e). intros l. induction l as [|x l IH]; intros Hnd.
    + simpl. lia.
    + rewrite fmap_cons in Hnd. apply NoDup_cons in Hnd as [Hx Hnd].
      simpl. case_bool_decide as Hname; [|by apply IH].
      rewrite filter_none; [simpl; lia|].
      intros y Hy. apply bool_decide_eq_false. intros Hy'. apply Hx.
      apply list_elem_of_fmap. exists y. split; [congruence|done].
  - intros Hnone. split; [|done]. apply filter_none.
    intros a Ha. apply bool_decide_eq_false. by apply Hnone.
Qed.

(** X10 at two agents and a message for carol, who is not there. *)
Lemma direct_message_delivery_witness :
  Env.delivered_to "alice" (ToName "carol") (people (Env.init Sample.two_agents)) = [].
Proof.
  destruct (direct_message_delivery (Env.init Sample.two_agents)
              "alice" "carol" "INFORM" "q" 0%Q "m1") as (_ & _ & Hnone).
  - discriminate.
  - apply Hnone. intros a Ha. simpl in Ha.
    apply elem_of_cons in Ha as [->|Ha]; [discriminate|].
    apply list_elem_of_singleton in Ha as ->. discriminate.
Defined.

Section Rollback.

Implicit Types (e : Environment) (a : Agent).

Lemma restore_agent_idem (snapshot : Snapshot) a :
  Env.restore_agent snapshot (Env.restore_agent snapshot a)
  = Env.restore_agent snapshot a.
Proof.
  unfold Env.restore_agent.
  destruct (snap_agents_state snapshot !! name a) as [s|] eqn:Hs; simpl.
  - by rewrite Hs.
  - by rewrite Hs.
Qed.

Lemma discard_after_idem (T : Z) (h : gmap Z Snapshot) :
  Env.discard_after T (Env.discard_after T h) = Env.discard_after T h.
Proof.
  apply map_eq. intros k. rewrite !discard_after_lookup.
  by destruct (decide (k > T)).
Qed.

Lemma environment_eq e e' :
  people e = people e' → message_pool e = message_pool e' →
  current_time e = current_time e' → global_history e = global_history e' →
  global_conflict_raised e = global_conflict_raised e' →
  conflict_details e = conflict_details e' → e = e'.
Proof. destruct e, e'. simpl. by intros -> -> -> -> -> ->. Qed.

End Rollback.



(** X12. Reverting twice to the same index is reverting once: the snapshot
    at the target survives the rollback, so [revert_environment T] can be
    repeated without further effect (and without a snapshot at [T] it has no
    effect at all). *)
Theorem revert_environment_idempotent (e : Environment) (T : Z) :
  Env.revert_environment T (Env.revert_environment T e)
  = Env.revert_environment T e
  ∧ global_history (Env.revert_environment T e) !! T = global_history e !! T
  ∧ (global_history e !! T = None → Env.revert_environment T e = e).
Proof.
  destruct (global_history e !! T) as [snapshot|] eqn:Hsnap.
  - assert (global_history (Env.revert_environment T e) !! T = Some snapshot)
      as Hkept.
    { rewrite (revert_environment_hit T e snapshot Hsnap). simpl.
      rewrite discard_after_lookup, decide_False by lia. done. }
    split; [|split; [done|done]].
    rewrite (revert_environment_hit T _ snapshot Hkept).
    rewrite (revert_environment_hit T e snapshot Hsnap). simpl.
    apply environment_eq; simpl; try done.
    + rewrite <- list_fmap_compose. apply list_fmap_ext.
      intros i a _. apply restore_agent_idem.
    + apply discard_after_idem.
  - assert (Env.revert_environment T e = e) as Hnoop
      by (unfold Env.revert_environment; by rewrite Hsnap).
    rewrite !Hnoop. by rewrite Hsnap.
Qed.

(** X12 at the sample environment and the index 7, which has no snapshot. *)
Lemma revert_environment_idempotent_witness :
  Env.revert_environment 7 Sample.env_at_3 = Sample.env_at_3.
Proof.
  apply (revert_environment_idempotent Sample.env_at_3 7).
  reflexivity.
Defined.

Section HistoryInvariant.

Implicit Types (e : Environment) (b : behaviour).

Lemma history_ok_frame e e' :
  Env.frame e e' → Env.history_ok e → Env.history_ok e'.
Proof.
  intros [Ht Hh _ _] Hok k s Hs. rewrite Hh in Hs. rewrite Ht. by apply Hok.
Qed.

Lemma history_ok_init ppl : Env.history_ok (Env.init ppl).
Proof. intros k s Hs. simpl in Hs. by apply lookup_empty_Some in Hs. Qed.

Lemma history_ok_tick e : Env.history_ok e → Env.history_ok (Env.tick e).
Proof.
  intros Hok k s Hs. simpl in *. destruct (Hok k s Hs) as [? ?].
  split; [lia|done].
Qed.

Lemma history_ok_checkpoint e :
  0 ≤ current_time e → Env.history_ok e →
  Env.history_ok (Env.checkpoint_environment e).
Proof.
  intros Ht Hok k s Hs. simpl in *.
  apply lookup_insert_Some in Hs as [[<- <-]|[_ Hs]].
  - split; [lia|done].
  - by apply Hok.
Qed.

Lemma history_ok_revert T e :
  Env.history_ok e → Env.history_ok (Env.revert_environment T e).
Proof.
  intros Hok. unfold Env.revert_environment.
  destruct (global_history e !! T) as [snapshot|] eqn:HT; [|done].
  intros k s Hs. simpl in *. rewrite discard_after_lookup in Hs.
  case_decide as Hk; [done|]. destruct (Hok k s Hs) as [? ?].
  split; [lia|done].
Qed.

Lemma history_ok_fallback_loop n e :
  Env.history_ok e → Env.history_ok (Env.fallback_loop n e).
Proof.
  induction n as [|n IH]; intros H; simpl; [done|].
  case_decide; [by apply history_ok_revert | by apply IH].
Qed.

Lemma history_ok_resolve e :
  Env.history_ok e → Env.history_ok (Env.resolve_conflict e).
Proof.
  intros H. unfold Env.resolve_conflict.
  exact (history_ok_fallback_loop (Z.to_nat (current_time e)) e H).
Qed.

Lemma history_ok_step b e :
  Env.wf e → Env.history_ok e → Env.history_ok (Env.run_time_step b e).
Proof.
  intros Hwf Hok. unfold Env.run_time_step, Env.resolve_if_raised.
  assert (Env.history_ok
            (Env.agents_run b (Env.checkpoint_environment (Env.tick e)))) as H1.
  { eapply history_ok_frame; [apply agents_run_frame|].
    apply history_ok_checkpoint; [|by apply history_ok_tick].
    destruct Hwf as [Ht _]. simpl. lia. }
  destruct (global_conflict_raised _); [by apply history_ok_resolve|done].
Qed.

Lemma reachable_history_ok ppl e : Env.reachable ppl e → Env.history_ok e.
Proof.
  induction 1 as [|e a Hr IH|e Hr IH|e T Hr IH|e Hr IH|e b Hr IH].
  - apply history_ok_init.
  - eapply history_ok_frame; [apply perform_frame|done].
  - apply history_ok_checkpoint; [|done].
    by destruct (reachable_wf ppl e Hr).
  - by apply history_ok_revert.
  - by apply history_ok_resolve.
  - apply history_ok_step; [|done]. by eapply reachable_wf.
Qed.

Lemma flag_ok_performs e acts :
  Env.flag_ok e → Env.flag_ok (foldl Env.perform e acts).
Proof.
  revert e. induction acts as [|a acts IH]; intros e H; simpl; [done|].
  apply IH. destruct a; done.
Qed.

Lemma flag_ok_agents_run b e : Env.flag_ok e → Env.flag_ok (Env.agents_run b e).
Proof.
  unfold Env.agents_run. generalize (seq 0 (length (people e))).
  intros l. revert e. induction l as [|i l IH]; intros e H; simpl; [done|].
  by apply IH, flag_ok_performs.
Qed.

Lemma flag_ok_revert T e : Env.flag_ok e → Env.flag_ok (Env.revert_environment T e).
Proof.
  intros H. unfold Env.revert_environment.
  by destruct (global_history e !! T).
Qed.

Lemma flag_ok_step b e :
  Env.flag_ok e →
  global_conflict_raised (Env.run_time_step b e) = false
  ∧ conflict_details (Env.run_time_step b e) = None.
Proof.
  intros H. unfold Env.run_time_step, Env.resolve_if_raised.
  assert (Env.flag_ok
            (Env.agents_run b (Env.checkpoint_environment (Env.tick e)))) as H1
    by (by apply flag_ok_agents_run).
  set (e1 := Env.agents_run b (Env.checkpoint_environment (Env.tick e))) in *.
  destruct (global_conflict_raised e1) eqn:Hflag; [done|].
  split; [done|by apply H1].
Qed.

Lemma reachable_flag_ok ppl e : Env.reachable ppl e → Env.flag_ok e.
Proof.
  induction 1 as [|e a _ IH|e _ IH|e T _ IH|e _ IH|e b _ IH].
  - done.
  - by apply (flag_ok_performs e [a]).
  - done.
  - by apply flag_ok_revert.
  - done.
  - intros _. by apply flag_ok_step.
Qed.

Lemma reachable_run ppl bs e :
  Env.reachable ppl e → Env.reachable ppl (Env.run_until_stable bs e).
Proof.
  revert e. induction bs as [|b bs IH]; intros e H; [done|].
  apply IH. by constructor.
Qed.

End HistoryInvariant.

(** X13. No snapshot from the future: in every state the environment can
    reach, each key of the global history is a time between 0 and the
    current time, and the bundle stored under a key carries that key in its
    ["time"] entry. *)
Theorem history_keys_in_the_past (ppl : list Agent) (e : Environment)
    (k : Z) (s : Snapshot) :
  Env.reachable ppl e →
  global_history e !! k = Some s →
  0 ≤ k ≤ current_time e ∧ snap_time s = k.
Proof.
  intros Hreach Hs. by apply (reachable_history_ok ppl e Hreach).
Qed.

(** X13 after five conflict-free steps, at the key 3. *)
Lemma history_keys_in_the_past_witness :
  0 ≤ 3 ≤ current_time
            (Env.run_until_stable Sample.five_quiet_steps
               (Env.init Sample.two_agents)).
Proof.
  apply (history_keys_in_the_past Sample.two_agents
           (Env.run_until_stable Sample.five_quiet_steps
              (Env.init Sample.two_agents))
           3
           (Env.take_snapshot
              (Env.tick
                 (Env.run_until_stable (take 2 Sample.five_quiet_steps)
                    (Env.init Sample.two_agents))))).
  - apply reachable_run, Env.reach_init.
  - reflexivity.
Defined.

(** X14. A time step never ends with a conflict pending: after
    [run_time_step], from any reachable state and whatever the agents do,
    the conflict flag is down and the detail payload is empty, so the check
    of the flag in [run_until_stable] always finds it down. *)
Theorem step_clears_conflict (ppl : list Agent) (e : Environment)
    (b : behaviour) (bs : list behaviour) :
  Env.reachable ppl e →
  global_conflict_raised (Env.run_time_step b e) = false
  ∧ conflict_details (Env.run_time_step b e) = None
  ∧ global_conflict_raised (Env.run_until_stable (bs ++ [b]) e) = false
  ∧ conflict_details (Env.run_until_stable (bs ++ [b]) e) = None.
Proof.
  intros Hreach.
  split; [|split]; try apply flag_ok_step; try by eapply reachable_flag_ok.
  rewrite run_until_stable_app.
  apply (flag_ok_step b). eapply reachable_flag_ok. by apply reachable_run.
Qed.

(** X14 at a fresh environment and a step in which bob raises a conflict. *)
Lemma step_clears_conflict_witness :
  global_conflict_raised
    (Env.run_time_step Sample.step_with_conflict (Env.init Sample.two_agents))
  = false.
Proof.
  apply (step_clears_conflict Sample.two_agents (Env.init Sample.two_agents)
           Sample.step_with_conflict []).
  apply Env.reach_init.
Defined.

(** X15. A step that ends in a conflict does not advance the clock: when
    the global history has a snapshot at the current time [t] and the flag
    is up after the agents have run, [run_time_step] first moves to [t + 1]
    and checkpoints there, then rolls back to [t]; the clock is at [t]
    again, the pool holds the messages recorded at [t], the checkpoint at
    [t + 1] is discarded and the one at [t] is kept. *)
Theorem conflict_step_keeps_clock (e : Environment) (b : behaviour)
    (snapshot : Snapshot) :
  0 ≤ current_time e →
  global_history e !! current_time e = Some snapshot →
  global_conflict_raised
    (Env.agents_run b (Env.checkpoint_environment (Env.tick e))) = true →
  current_time (Env.run_time_step b e) = current_time e
  ∧ messages (message_pool (Env.run_time_step b e)) = snap_message_pool snapshot
  ∧ people (Env.run_time_step b e)
    = Env.restore_agent snapshot
        <$> people (Env.agents_run b (Env.checkpoint_environment (Env.tick e)))
  ∧ global_history (Env.run_time_step b e) !! (current_time e + 1) = None
  ∧ global_history (Env.run_time_step b e) !! current_time e = Some snapshot
  ∧ global_conflict_raised (Env.run_time_step b e) = false.
Proof.
  intros Ht Hsnap Hflag. unfold Env.run_time_step, Env.resolve_if_raised.
  destruct (agents_run_frame b (Env.checkpoint_environment (Env.tick e)))
    as [Ht1 Hh1 _ _].
  set (e1 := Env.agents_run b (Env.checkpoint_environment (Env.tick e))) in *.
  simpl in Ht1, Hh1. rewrite Hflag.
  assert (global_history e1 !! current_time e = Some snapshot) as Hsnap1.
  { rewrite Hh1, lookup_insert_ne by lia. done. }
  assert (Env.resolve_conflict e1
          = Env.clear_conflict (Env.revert_environment (current_time e) e1))
    as ->.
  { unfold Env.resolve_conflict. f_equal. rewrite Ht1.
    apply fallback_loop_hit.
    - rewrite Z2Nat.id by lia. lia.
    - by exists snapshot.
    - intros j Hj. rewrite Z2Nat.id in Hj by lia. lia. }
  rewrite (revert_environment_hit _ _ _ Hsnap1). simpl.
  split; [done|]. split; [done|]. split; [done|].
  rewrite !discard_after_lookup.
  rewrite decide_True by lia. rewrite decide_False by lia. done.
Qed.

(** X15 at the sample environment at time 3 and a step in which bob raises
    a conflict. *)
Lemma conflict_step_keeps_clock_witness :
  current_time (Env.run_time_step Sample.step_with_conflict Sample.env_at_3) = 3.
Proof.
  apply (conflict_step_keeps_clock Sample.env_at_3 Sample.step_with_conflict
           (Env.take_snapshot
              (Env.tick
                 (Env.send_message "alice" (ToName "bob") "INFORM" "q" 0%Q "m1"
                    Sample.env_at_2)))).
  - simpl. lia.
  - reflexivity.
  - reflexivity.
Defined.

(** X16. Conflict-free steps from any state without a pending conflict:
    [n] steps advance the clock by [n]; the entries of the global history at
    keys up to the starting time are untouched; the entry at the [i + 1]-th
    new key is the checkpoint of the state the first [i] steps produced,
    whatever was stored under that key before; and the pool only grows. *)
Theorem quiet_run_schedule (e : Environment) (bs : list behaviour) :
  global_conflict_raised e = false →
  Forall (fun b => Env.conflict_free b = true) bs →
  current_time (Env.run_until_stable bs e)
  = current_time e + Z.of_nat (length bs)
  ∧ (∀ k, k ≤ current_time e →
       global_history (Env.run_until_stable bs e) !! k = global_history e !! k)
  ∧ (∀ i : nat, (i < length bs)%nat →
       global_history (Env.run_until_stable bs e) !! (current_time e + Z.of_nat i + 1)
       = Some (Env.take_snapshot
                 (Env.tick (Env.run_until_stable (take i bs) e))))
  ∧ messages (message_pool e)
      `prefix_of` messages (message_pool (Env.run_until_stable bs e))
  ∧ global_conflict_raised (Env.run_until_stable bs e) = false.
Proof.
  intros Hflag Hq.
  destruct (run_quiet bs e Hflag Hq) as (Ht & Hf & Hp).
  split; [done|]. split; [|split; [|done]].
  - intros k Hk. rewrite (run_history bs e k Hflag Hq).
    rewrite decide_False; [done|lia].
  - intros i Hi. rewrite (run_history bs e _ Hflag Hq).
    rewrite decide_True by lia.
    by replace (Z.to_nat (current_time e + Z.of_nat i + 1 - current_time e - 1))
      with i by lia.
Qed.

(** X16 at the sample environment at time 3 and five conflict-free steps. *)
Lemma quiet_run_schedule_witness :
  current_time (Env.run_until_stable Sample.five_quiet_steps Sample.env_at_3)
  = current_time Sample.env_at_3 + Z.of_nat (length Sample.five_quiet_steps).
Proof.
  apply (quiet_run_schedule Sample.env_at_3 Sample.five_quiet_steps).
  - reflexivity.
  - repeat constructor.
Defined.

(** * Further properties of the group chat *)

Section DiscussionFacts.

Implicit Types (g : GroupChatEnvironment) (b : behaviour) (bs : list behaviour).

Lemma run_round_frame (i : nat) b g :
  trust_graph (GroupChat.run_round i b g) = trust_graph g
  ∧ discussion_history (GroupChat.run_round i b g)
    = discussion_history g
      ++ [GroupChat.summary_of_round i
            (GroupChat.with_base (base (GroupChat.run_round i b g)) g)]
  ∧ global_conflict_raised (base (GroupChat.run_round i b g)) = false.
Proof.
  split; [done|]. split; [done|]. simpl. apply resolve_if_raised_flag.
Qed.

Lemma rounds_from_frame (i : nat) bs g :
  trust_graph (GroupChat.rounds_from i bs g) = trust_graph g
  ∧ discussion_history g
      `prefix_of` discussion_history (GroupChat.rounds_from i bs g)
  ∧ length (discussion_history (GroupChat.rounds_from i bs g))
    = (length (discussion_history g) + length bs)%nat
  ∧ (bs ≠ [] →
     global_conflict_raised (base (GroupChat.rounds_from i bs g)) = false).
Proof.
  revert i g. induction bs as [|b bs IH]; intros i g.
  - simpl. split; [done|]. split; [done|]. split; [lia|done].
  - cbn [GroupChat.rounds_from].
    destruct (IH (S i) (GroupChat.run_round i b g)) as (Ht & Hp & Hl & Hf).
    destruct (run_round_frame i b g) as (Ht1 & Hd1 & Hf1).
    split; [congruence|]. split.
    { etrans; [|exact Hp]. rewrite Hd1. by apply prefix_app_r. }
    split.
    { rewrite Hl, Hd1, length_app. simpl. lia. }
    intros _. destruct bs as [|b' bs']; [exact Hf1|]. by apply Hf.
Qed.

(** After at least one round that keeps the clock there is an entry under
    the current time. *)
Lemma rounds_from_steady_key (i : nat) bs g :
  bs ≠ [] → GroupChat.steady bs g →
  is_Some (global_history (base (GroupChat.rounds_from i bs g))
             !! current_time (base g)).
Proof.
  intros Hne Hst. destruct (exists_last Hne) as (bs' & b & ->).
  rewrite rounds_from_app. cbn [GroupChat.rounds_from].
  destruct (rounds_from_steady i bs' g) as [Ht _].
  { replace bs' with (take (length bs') (bs' ++ [b]))
      by (by rewrite take_app_length).
    by apply steady_take. }
  destruct (run_round_same_key (i + length bs') b (GroupChat.rounds_from i bs' g))
    as [_ Hh].
  { apply (steady_head b []). by apply steady_rounds. }
  rewrite Hh, Ht, lookup_insert_eq. by eexists.
Qed.

End DiscussionFacts.

(** X17. Rounds leave trust alone: [run_round] and [start_discussion] never
    change the trust graph (the rating code of the round is commented out);
    each round appends exactly one summary to the discussion history, after
    the summaries already there; and a discussion of at least one round ends
    with the conflict flag down. *)
Theorem rounds_leave_trust_alone (g : GroupChatEnvironment) (bs : list behaviour) :
  trust_graph (GroupChat.start_discussion bs g) = trust_graph g
  ∧ discussion_history g
      `prefix_of` discussion_history (GroupChat.start_discussion bs g)
  ∧ length (discussion_history (GroupChat.start_discussion bs g))
    = (length (discussion_history g) + length bs)%nat
  ∧ (bs ≠ [] →
     global_conflict_raised (base (GroupChat.start_discussion bs g)) = false).
Proof.
  unfold GroupChat.start_discussion. apply rounds_from_frame.
Qed.

(** X17 at the group chat at time 2 and two rounds, the first with a
    conflict. *)
Lemma rounds_leave_trust_alone_witness :
  global_conflict_raised
    (base (GroupChat.start_discussion [Sample.round_with_conflict; []]
             Sample.chat_at_2)) = false.
Proof.
  apply (rounds_leave_trust_alone Sample.chat_at_2
           [Sample.round_with_conflict; []]).
  discriminate.
Defined.

(** X18. [GroupChatEnvironment.start] on a fresh group chat: whatever the
    agents do in the three rounds (conflicts included), when the twenty
    time steps that follow are conflict-free the clock ends at 20, the
    global history has exactly the keys 0 to 20 (one entry for all the
    rounds, one per step), three summaries are recorded and the trust graph
    is the initial one. *)
Theorem start_on_fresh_chat (ppl : list Agent) (rounds steps : nat → behaviour) :
  (∀ i, Env.conflict_free (steps i) = true) →
  current_time (base (GroupChat.start rounds steps (GroupChat.init ppl))) = 20
  ∧ (∀ k, is_Some (global_history
                     (base (GroupChat.start rounds steps (GroupChat.init ppl))) !! k)
          ↔ 0 ≤ k ≤ 20)
  ∧ length (discussion_history (GroupChat.start rounds steps (GroupChat.init ppl)))
    = 3%nat
  ∧ trust_graph (GroupChat.start rounds steps (GroupChat.init ppl))
    = GroupChat._initialize_trust_graph ppl.
Proof.
  intros Hq.
  assert (∃ rs, rs = rounds <$> seq 0 3 ∧ length rs = 3%nat) as (rs & Hrs & Hlen3).
  { eexists. split; [done|]. by rewrite length_fmap, length_seq. }
  assert (∃ ss, ss = steps <$> seq 0 20 ∧ length ss = 20%nat
                ∧ Forall (fun b => Env.conflict_free b = true) ss)
    as (ss & Hss & Hlen20 & Hquiet).
  { eexists. split; [done|]. split; [by rewrite length_fmap, length_seq|].
    apply Forall_fmap, Forall_forall. intros i _. apply Hq. }
  assert (∀ g, GroupChat.start rounds steps g
               = GroupChat.with_base
                   (Env.run_until_stable ss
                      (base (GroupChat.rounds_from 0 rs g)))
                   (GroupChat.rounds_from 0 rs g)) as Hstart
    by (intros g; by rewrite Hrs, Hss).
  rewrite Hstart. clear Hstart Hrs Hss.
  assert (rs ≠ []) as Hne by (by destruct rs).
  assert (GroupChat.steady rs (GroupChat.init ppl)) as Hst.
  { right. intros j Hj. apply lookup_empty. }
  destruct (rounds_from_steady 0 rs _ Hst) as [Ht1 Hh1].
  pose proof (rounds_from_steady_key 0 rs _ Hne Hst) as Hk1.
  destruct (rounds_from_frame 0 rs (GroupChat.init ppl))
    as (Htrust & _ & Hlen & Hflag).
  specialize (Hflag Hne).
  generalize dependent (GroupChat.rounds_from 0 rs (GroupChat.init ppl)).
  intros g1 Ht1 Hh1 Hk1 Htrust Hlen Hflag.
  change (current_time (base (GroupChat.init ppl))) with 0 in Ht1, Hh1, Hk1.
  destruct (run_quiet ss (base g1) Hflag Hquiet) as (Ht2 & _ & _).
  unfold GroupChat.with_base. cbn [base trust_graph discussion_history].
  split. { rewrite Ht2, Ht1, Hlen20. done. }
  split; [|split; [by rewrite Hlen, Hlen3|exact Htrust]].
  intros k. rewrite (run_history ss (base g1) k Hflag Hquiet).
  rewrite Ht1, Hlen20.
  destruct (decide (0 < k ≤ 0 + Z.of_nat 20)) as [Hin|Hout].
  - split; [lia|]. intros _. by eexists.
  - destruct (decide (k = 0)) as [->|Hk0].
    + split; [lia|]. intros _. exact Hk1.
    + rewrite Hh1 by done. cbn [GroupChat.init base Env.init global_history].
      rewrite lookup_empty. split; [by intros [? ?]|lia].
Qed.

(** X18 at two agents, rounds with a conflict and steps without actions. *)
Lemma start_on_fresh_chat_witness :
  current_time
    (base (GroupChat.start (fun _ => Sample.round_with_conflict) (fun _ => [])
             (GroupChat.init Sample.two_agents))) = 20.
Proof.
  apply (start_on_fresh_chat Sample.two_agents
           (fun _ => Sample.round_with_conflict) (fun _ => [])).
  intros i. reflexivity.
Defined.



(** X20. The initial trust graph holds exactly the ordered pairs of distinct
    agent names, each with the score 0.5: no agent has a score for itself,
    and no name outside the list appears on either side. *)
Theorem initial_trust_graph_exact (ppl : list Agent) (a b : string) :
  GroupChat.score a b (GroupChat._initialize_trust_graph ppl)
  = if decide (a ∈ name <$> ppl ∧ b ∈ name <$> ppl ∧ a ≠ b)
    then Some 0.5%Q else None.
Proof.
  case_decide as H.
  - destruct H as (Ha & Hb & Hab). by apply initial_pairwise.
  - destruct (GroupChat.score a b (GroupChat._initialize_trust_graph ppl))
      as [s|] eqn:Hs; [|done].
    exfalso. apply H.
    destruct (initial_scores ppl a b s Hs) as [_ Hab].
    unfold GroupChat.score in Hs.
    destruct (GroupChat._initialize_trust_graph ppl !! a) as [row|] eqn:Hrow;
      [|done].
    destruct (initial_rows ppl a row Hrow) as (agent & Hin & Hname & ->).
    rewrite trust_row_lookup in Hs. case_decide as Hb; [|done].
    split; [|split; [by destruct Hb|done]].
    apply list_elem_of_fmap. by exists agent.
Qed.

(** X21. [update_trust_score] touches one pair: the call raises (and the
    graph stays as it is) exactly when the evaluator has no row; otherwise
    the pair of the call gets the new score, computed from its old score or
    from 0.5 when the pair had none (an unknown evaluatee, or the evaluator
    rating itself), and the score of every other pair is as before. *)
Theorem update_trust_score_frame (g : gmap string (gmap string Q))
    (evaluator evaluatee : string) (rating : Q) :
  (g !! evaluator = None →
   GroupChat.update_trust_score evaluator evaluatee rating g = None)
  ∧ (∀ g', GroupChat.update_trust_score evaluator evaluatee rating g = Some g' →
       is_Some (g !! evaluator)
       ∧ GroupChat.score evaluator evaluatee g'
         = Some (GroupChat.new_trust_score
                   (default 0.5%Q (GroupChat.score evaluator evaluatee g)) rating)
       ∧ (∀ a b, (a, b) ≠ (evaluator, evaluatee) →
                 GroupChat.score a b g' = GroupChat.score a b g)
       ∧ dom g' = dom g).
Proof.
  unfold GroupChat.update_trust_score, GroupChat.score.
  destruct (g !! evaluator) as [row|] eqn:Hrow; split; try done.
  intros g' [= <-]. split; [by eexists|].
  rewrite lookup_insert_eq, lookup_insert_eq. split; [done|]. split.
  - intros a b Hab. destruct (decide (a = evaluator)) as [->|Ha].
    + rewrite lookup_insert_eq, Hrow. rewrite lookup_insert_ne; [done|].
      intros <-. by apply Hab.
    + by rewrite lookup_insert_ne.
  - apply dom_insert_lookup_L. by eexists.
Qed.

(** X21 at the initial graph of two agents: alice rates herself, and her
    score for bob is as before. *)
Lemma update_trust_score_frame_witness :
  match GroupChat.update_trust_score "alice" "alice" 9
          (GroupChat._initialize_trust_graph Sample.two_agents) with
  | Some g' => GroupChat.score "alice" "bob" g' = Some 0.5%Q
  | None => False
  end.
Proof.
  destruct (update_trust_score_frame
              (GroupChat._initialize_trust_graph Sample.two_agents)
              "alice" "alice" 9%Q) as [_ Hsome].
  destruct (GroupChat.update_trust_score "alice" "alice" 9
              (GroupChat._initialize_trust_graph Sample.two_agents))
    as [g'|] eqn:Hg'.
  - destruct (Hsome g' eq_refl) as (_ & _ & Hother & _).
    rewrite (Hother "alice" "bob"); [reflexivity|discriminate].
  - discriminate Hg'.
Defined.

(** * Properties of the agents' local states *)

Section LocalStateFacts.

Implicit Types (s : LocalState).

Lemma backtrack_checkpoint s :
  BaseAgent.local_backtrack (BaseAgent.checkpoint_state s) = s.
Proof.
  unfold BaseAgent.local_backtrack, BaseAgent.checkpoint_state. simpl.
  by rewrite last_snoc.
Qed.

Lemma nodes_checkpoint s :
  BaseAgent.nodes (BaseAgent.checkpoint_state s) = (2 * BaseAgent.nodes s)%nat.
Proof.
  destruct s as [facts h stack]. unfold BaseAgent.checkpoint_state. simpl.
  rewrite List.map_app, list_sum_app. simpl. unfold deepcopy. lia.
Qed.

Lemma nodes_iter_checkpoint (n : nat) s :
  BaseAgent.nodes (Nat.iter n BaseAgent.checkpoint_state s)
  = (2 ^ n * BaseAgent.nodes s)%nat.
Proof.
  induction n as [|n IH]; [simpl; lia|].
  rewrite Nat.iter_succ, nodes_checkpoint, IH, Nat.pow_succ_r'. lia.
Qed.

Lemma stack_iter_checkpoint (n : nat) s :
  length (BaseAgent.backtrack_stack (Nat.iter n BaseAgent.checkpoint_state s))
  = (length (BaseAgent.backtrack_stack s) + n)%nat.
Proof.
  induction n as [|n IH]; [simpl; lia|].
  rewrite Nat.iter_succ. unfold BaseAgent.checkpoint_state at 1.
  cbn [BaseAgent.backtrack_stack]. rewrite length_app, IH. simpl. lia.
Qed.




End LocalStateFacts.

(** X22. Local checkpoint and backtrack: [local_backtrack] right after
    [checkpoint_state] gives back the local state exactly as it was, also
    when facts were added in between; [n] checkpoints followed by [n]
    backtracks return to the start; and with an empty stack
    [local_backtrack] changes nothing. *)
Theorem local_checkpoint_roundtrip (s : LocalState) (evidence_list : list string)
    (n : nat) :
  BaseAgent.local_backtrack (BaseAgent.checkpoint_state s) = s
  ∧ BaseAgent.local_backtrack
      (BaseAgent.add_facts evidence_list (BaseAgent.checkpoint_state s)) = s
  ∧ Nat.iter n BaseAgent.local_backtrack (Nat.iter n BaseAgent.checkpoint_state s)
    = s
  ∧ (BaseAgent.backtrack_stack s = [] → BaseAgent.local_backtrack s = s).
Proof.
  split; [apply backtrack_checkpoint|]. split.
  { unfold BaseAgent.local_backtrack, BaseAgent.add_facts,
      BaseAgent.checkpoint_state. simpl. by rewrite last_snoc. }
  split.
  - induction n as [|n IH]; [done|].
    rewrite Nat.iter_succ_r. simpl. by rewrite backtrack_checkpoint.
  - intros Hempty. unfold BaseAgent.local_backtrack. by rewrite Hempty.
Qed.

(** X22 at the local state of a fresh agent, whose stack is empty. *)
Lemma local_checkpoint_roundtrip_witness :
  BaseAgent.local_backtrack (local_state (fresh_agent "alice"))
  = local_state (fresh_agent "alice").
Proof.
  apply (local_checkpoint_roundtrip (local_state (fresh_agent "alice")) [] 0).
  reflexivity.
Defined.

(** X23. Each [checkpoint_state] doubles the local state: the snapshot it
    pushes is a copy of the whole state, earlier snapshots included, so
    after [n] checkpoints the state holds [2 ^ n] times as many state
    dictionaries as before (for a fresh agent, [2 ^ n]). *)
Theorem checkpoint_doubles_state (s : LocalState) (n : nat) :
  BaseAgent.nodes (BaseAgent.checkpoint_state s) = (2 * BaseAgent.nodes s)%nat
  ∧ BaseAgent.nodes (Nat.iter n BaseAgent.checkpoint_state s)
    = (2 ^ n * BaseAgent.nodes s)%nat
  ∧ BaseAgent.nodes
      (Nat.iter n BaseAgent.checkpoint_state (local_state (fresh_agent "")))
    = (2 ^ n)%nat
  ∧ length (BaseAgent.backtrack_stack (Nat.iter n BaseAgent.checkpoint_state s))
    = (length (BaseAgent.backtrack_stack s) + n)%nat.
Proof.
  split; [apply nodes_checkpoint|]. split; [apply nodes_iter_checkpoint|].
  split; [|apply stack_iter_checkpoint].
  rewrite nodes_iter_checkpoint. simpl. lia.
Qed.



(** X25. The assembler's threshold: an [ASSERT] makes the assembler send a
    final answer exactly when it then holds at least three partial answers;
    the partial answers are never removed, so once an answer was sent every
    further [ASSERT], even an empty one, sends an answer again. *)
Theorem assembler_threshold (partial_answers new_facts more_facts : list string) :
  (is_Some (AnswerAssemblerAgent.receive_assert new_facts partial_answers).2
   ↔ (3 ≤ length partial_answers + length new_facts)%nat)
  ∧ (AnswerAssemblerAgent.receive_assert new_facts partial_answers).1
    = partial_answers ++ new_facts
  ∧ (is_Some (AnswerAssemblerAgent.receive_assert new_facts partial_answers).2 →
     is_Some (AnswerAssemblerAgent.receive_assert more_facts
                (AnswerAssemblerAgent.receive_assert new_facts partial_answers).1).2).
Proof.
  assert (∀ p n, is_Some (AnswerAssemblerAgent.receive_assert n p).2
                 ↔ (3 ≤ length p + length n)%nat) as Hiff.
  { intros p n. unfold AnswerAssemblerAgent.receive_assert,
      AnswerAssemblerAgent.ready_for_final. cbn [snd]. rewrite length_app.
    destruct (3 <=? length p + length n)%nat eqn:Hle.
    - apply Nat.leb_le in Hle. split; [done|]. intros _. by eexists.
    - apply Nat.leb_gt in Hle. split; [intros [? ?]; discriminate|lia]. }
  split; [apply Hiff|]. split; [done|].
  rewrite !Hiff. cbn [fst AnswerAssemblerAgent.receive_assert].
  rewrite length_app. lia.
Qed.

(** X25 at an assembler holding two answers that receives a third. *)
Lemma assembler_threshold_witness :
  is_Some (AnswerAssemblerAgent.receive_assert []
             (AnswerAssemblerAgent.receive_assert ["c"] ["a"; "b"]).1).2.
Proof.
  apply (assembler_threshold ["a"; "b"] ["c"] []).
  by eexists.
Defined.

(** * Conflict storms and shared names *)

Section Storm.

Implicit Types (e : Environment) (b : behaviour) (bs : list behaviour).

Lemma performs_flag_up e acts :
  global_conflict_raised e = true ∨ existsb Env.is_raise acts = true →
  global_conflict_raised (foldl Env.perform e acts) = true.
Proof.
  revert e. induction acts as [|a acts IH]; intros e H; simpl in *.
  - by destruct H.
  - apply IH. destruct H as [H|H].
    + left. by destruct a.
    + apply orb_true_iff in H as [Ha|Hacts]; [|by right].
      left. by destruct a.
Qed.

Lemma passes_flag_kept b (l : list nat) e :
  global_conflict_raised e = true →
  global_conflict_raised
    (foldl (fun e' j => foldl Env.perform e' (default [] (b !! j))) e l) = true.
Proof.
  revert e. induction l as [|j l IH]; intros e H; simpl; [done|].
  apply IH, performs_flag_up. by left.
Qed.

Lemma passes_flag_up b (l : list nat) e (i : nat) acts :
  i ∈ l → b !! i = Some acts → existsb Env.is_raise acts = true →
  global_conflict_raised
    (foldl (fun e' j => foldl Env.perform e' (default [] (b !! j))) e l) = true.
Proof.
  intros Hin Hi Hacts. revert e. induction l as [|j l IH]; intros e.
  - by apply elem_of_nil in Hin.
  - simpl. apply elem_of_cons in Hin as [<-|Hin]; [|by apply IH].
    apply passes_flag_kept, performs_flag_up. right. by rewrite Hi.
Qed.

Lemma agents_run_flag_up b e :
  Env.raises_conflict b (length (people e)) = true →
  global_conflict_raised (Env.agents_run b e) = true.
Proof.
  unfold Env.raises_conflict, Env.agents_run. intros Hraise.
  apply existsb_exists in Hraise as (acts & Hin & Hacts).
  apply list_elem_of_In, list_elem_of_lookup in Hin as [i Hi].
  apply lookup_take_Some in Hi as [Hi Hlt].
  apply (passes_flag_up b _ e i acts); [|done|done].
  apply elem_of_seq. lia.
Qed.

Lemma agents_run_people_length b e :
  length (people (Env.agents_run b e)) = length (people e).
Proof.
  destruct (agents_run_frame b e) as [_ _ _ Hnames].
  by rewrite <- (length_fmap name), Hnames, length_fmap.
Qed.

(** One step in which some agent raises a conflict, from a state with a
    snapshot at the current time. *)
Lemma storm_step b e :
  0 ≤ current_time e →
  is_Some (global_history e !! current_time e) →
  Env.raises_conflict b (length (people e)) = true →
  current_time (Env.run_time_step b e) = current_time e
  ∧ is_Some (global_history (Env.run_time_step b e) !! current_time e)
  ∧ (∀ k, current_time e < k →
          global_history (Env.run_time_step b e) !! k = None)
  ∧ length (people (Env.run_time_step b e)) = length (people e).
Proof.
  intros Ht [snapshot Hsnap] Hraise.
  set (e1 := Env.agents_run b (Env.checkpoint_environment (Env.tick e))).
  assert (global_conflict_raised e1 = true) as Hflag
    by (by apply agents_run_flag_up).
  destruct (agents_run_frame b (Env.checkpoint_environment (Env.tick e)))
    as [Ht1 Hh1 _ _]. fold e1 in Ht1, Hh1. simpl in Ht1, Hh1.
  assert (global_history e1 !! current_time e = Some snapshot) as Hsnap1.
  { rewrite Hh1, lookup_insert_ne by lia. done. }
  assert (Env.run_time_step b e
          = Env.clear_conflict (Env.revert_environment (current_time e) e1))
    as ->.
  { unfold Env.run_time_step, Env.resolve_if_raised. fold e1. rewrite Hflag.
    unfold Env.resolve_conflict. f_equal. rewrite Ht1.
    apply fallback_loop_hit.
    - rewrite Z2Nat.id by lia. lia.
    - by exists snapshot.
    - intros j Hj. rewrite Z2Nat.id in Hj by lia. lia. }
  rewrite (revert_environment_hit _ _ _ Hsnap1). simpl.
  split; [done|]. split; [|split].
  - rewrite discard_after_lookup, decide_False by lia. by exists snapshot.
  - intros k Hk. rewrite discard_after_lookup, decide_True by lia. done.
  - rewrite length_fmap.
    exact (agents_run_people_length b (Env.checkpoint_environment (Env.tick e))).
Qed.

End Storm.

(** X26. A conflict storm stalls the clock: from a state with a snapshot at
    its current time, steps in each of which some agent raises a conflict
    leave [current_time] where it is, however many of them
    [run_until_stable] runs; every step rolls back to that same snapshot,
    and no snapshot above it is left. *)
Theorem conflict_storm_stalls_clock (e : Environment) (bs : list behaviour) :
  0 ≤ current_time e →
  is_Some (global_history e !! current_time e) →
  Forall (fun b => Env.raises_conflict b (length (people e)) = true) bs →
  current_time (Env.run_until_stable bs e) = current_time e
  ∧ is_Some (global_history (Env.run_until_stable bs e) !! current_time e)
  ∧ (bs ≠ [] → ∀ k, current_time e < k →
       global_history (Env.run_until_stable bs e) !! k = None).
Proof.
  intros Ht Hsnap Hall. revert e Ht Hsnap Hall.
  induction bs as [|b bs IH]; intros e Ht Hsnap Hall; [done|].
  apply Forall_cons in Hall as [Hb Hbs].
  destruct (storm_step b e Ht Hsnap Hb) as (Ht1 & Hsnap1 & Hgone1 & Hlen1).
  change (Env.run_until_stable (b :: bs) e)
    with (Env.run_until_stable bs (Env.run_time_step b e)).
  destruct (IH (Env.run_time_step b e)) as (Ht2 & Hsnap2 & Hlater).
  { by rewrite Ht1. }
  { by rewrite Ht1. }
  { by rewrite Hlen1. }
  rewrite Ht1 in Ht2, Hsnap2, Hlater.
  split; [done|]. split; [done|]. intros _ k Hk.
  destruct bs as [|b' bs']; [by apply Hgone1|].
  by apply Hlater.
Qed.

(** X26 at the sample environment at time 3 and three steps in each of
    which bob raises a conflict. *)
Lemma conflict_storm_stalls_clock_witness :
  current_time
    (Env.run_until_stable
       [Sample.step_with_conflict; Sample.step_with_conflict;
        Sample.step_with_conflict] Sample.env_at_3) = 3.
Proof.
  apply (conflict_storm_stalls_clock Sample.env_at_3
           [Sample.step_with_conflict; Sample.step_with_conflict;
            Sample.step_with_conflict]).
  - simpl. lia.
  - eexists. reflexivity.
  - repeat constructor.
Defined.

Section SharedNames.

Implicit Types (e : Environment) (a : Agent) (ppl : list Agent).

(** The bundle keeps, for each name, the local state of the last agent of
    that name. *)
Lemma agents_state_of_last ppl (n : string) :
  Env.agents_state_of ppl !! n
  = local_state <$> last (List.filter (fun x => bool_decide (name x = n)) ppl).
Proof.
  induction ppl as [|x ppl IH] using rev_ind; [done|].
  rewrite agents_state_of_app, List.filter_app. simpl.
  case_bool_decide as Hx.
  - rewrite Hx, lookup_insert_eq, last_snoc. done.
  - rewrite lookup_insert_ne by done. by rewrite app_nil_r.
Qed.

End SharedNames.

(** X27. Agents that share a name share one slot of the checkpoint: the
    bundle keeps the local state of the last agent of each name, so a
    rollback to the checkpoint gives every agent the state that the last
    agent of its name had when the checkpoint was taken. *)
Theorem shared_name_rollback (e : Environment) (b : behaviour) (i : nat) (a : Agent) :
  people e !! i = Some a →
  ∃ a', last (List.filter (fun x => bool_decide (name x = name a)) (people e))
        = Some a'
        ∧ people (Env.revert_environment (current_time e)
                    (Env.agents_run b (Env.checkpoint_environment e))) !! i
          = Some {| name := name a; local_state := local_state a' |}.
Proof.
  intros Ha.
  destruct (agents_run_frame b (Env.checkpoint_environment e))
    as [_ Hh _ Hnames].
  set (e1 := Env.agents_run b (Env.checkpoint_environment e)) in *.
  simpl in Hh, Hnames.
  assert (global_history e1 !! current_time e = Some (Env.take_snapshot e))
    as Hsnap by (rewrite Hh; apply lookup_insert_eq).
  assert (∃ a1, people e1 !! i = Some a1 ∧ name a1 = name a) as (a1 & Ha1 & Hn1).
  { assert ((name <$> people e1) !! i = Some (name a)) as Hi
      by (by rewrite Hnames, list_lookup_fmap, Ha).
    rewrite list_lookup_fmap in Hi.
    destruct (people e1 !! i) as [a1|]; [|done]. exists a1.
    split; [done|]. by injection Hi. }
  destruct (last (List.filter (fun x => bool_decide (name x = name a)) (people e)))
    as [a'|] eqn:Hlast.
  - exists a'. split; [done|].
    rewrite (revert_environment_hit _ _ _ Hsnap). simpl.
    rewrite list_lookup_fmap, Ha1. simpl. unfold Env.restore_agent. simpl.
    rewrite agents_state_of_last, Hn1, Hlast. done.
  - exfalso. apply last_None in Hlast.
    assert (a ∈ List.filter (fun x => bool_decide (name x = name a)) (people e))
      as Hin.
    { apply filter_elem_of. split; [by eapply list_elem_of_lookup_2|].
      by apply bool_decide_eq_true. }
    rewrite Hlast in Hin. by apply elem_of_nil in Hin.
Qed.

(** X27 at two agents of one name: after checkpoint and rollback the first
    has the local state of the second. *)
Lemma shared_name_rollback_witness :
  people (Env.revert_environment 0
            (Env.agents_run [] (Env.checkpoint_environment (Env.init Sample.twins))))
    !! 0%nat
  = Some {| name := "twin"; local_state := mkLocalState ["second"] [] [] |}.
Proof.
  destruct (shared_name_rollback (Env.init Sample.twins) [] 0
              {| name := "twin"; local_state := mkLocalState ["first"] [] [] |})
    as (a' & Hlast & Hpeople).
  - reflexivity.
  - injection Hlast as <-. exact Hpeople.
Defined.
